(** * A shallow embedding of the WebRTC signaling server (src/index.ts)

    The server keeps one mutable [SignalClient] object per accepted
    connection and a [Map<string, SignalClient>] from peer ids to these
    objects.  The same object is reachable from the map and from the closures
    of the connection's event handlers, so the embedding keeps an object
    store addressed by references next to the map.  Handlers run one at a
    time, each to completion; they are written in a small state-and-exception
    monad over the [World] below. *)

From Stdlib Require Import ZArith.
From stdpp Require Import base list strings.

Local Open Scope string_scope.
Local Open Scope list_scope.

(** ** Data model *)

(** A WebSocket object and a [SignalClient] object are addressed by the
    position at which they were allocated. *)
Definition sock := nat.
Definition ref := nat.

(** [WebSocket.readyState]. *)
Inductive ReadyState := CONNECTING | OPEN | CLOSING | CLOSED.

(** [interface SignalClient]. *)
Record SignalClient := mkSignalClient {
  id : string;
  socket : sock;
  lastSeen : Z
}.

(** The two DOM dictionaries carried by relay messages; the server never
    looks inside them. *)
Record RTCSessionDescriptionInit := mkSessionDescription {
  sdp : option string;
  sdpType : string
}.

Record RTCIceCandidateInit := mkIceCandidate {
  iceCandidate : option string;
  sdpMLineIndex : option Z;
  sdpMid : option string;
  usernameFragment : option string
}.

(** [interface SignalMessage]; an optional field is [None] when absent. *)
Record SignalMessage := mkSignalMessage {
  type : string;
  source : option string;
  target : option string;
  peerId : option string;
  offer : option RTCSessionDescriptionInit;
  answer : option RTCSessionDescriptionInit;
  candidate : option RTCIceCandidateInit
}.

(** The text of an inbound frame, seen through [JSON.parse]: either text the
    parser rejects, or text that decodes to a [SignalMessage]. *)
Inductive RawData :=
| Malformed
| Json (m : SignalMessage).

(** What the server hands to [socket.send]: the object literals built in the
    source, or an inbound message passed on as it is.  [JSON.stringify] is
    left abstract: the payload is the object itself. *)
Inductive ServerMessage :=
| Welcome (peerId : string)
| ErrorReply (message : string)
| Registered (peerId : string)
| Peers (peers : list string)
| Relayed (m : SignalMessage).

(** The lines written by [log], one constructor per call site, with the
    values interpolated into the template. *)
Inductive Level := info | warn | error.

Inductive LogLine :=
| NewConnection (tempId : string)
| SocketError (cid : string)
| ServerError
| UnknownMessageType (cid : string) (ty : string)
| ParseError (cid : string)
| InvalidRegistration (cid : string)
| IdInUse (cid : string) (newPeerId : string)
| ClientRegistered (newPeerId : string)
| NoTarget
| UnknownTarget (tgt : string)
| Relaying (ty : string) (src : option string) (tgt : string)
| SentPeerList (cid : string) (n : nat)
| BroadcastedPeerList (n : nat)
| ClientDisconnected (cid : string)
| SendError (cid : string)
| BroadcastError (cid : string)
| TimedOut (cid : string) (seconds : Z).

(** Everything a handler does to the outside, in program order.  [Send] is a
    call of [socket.send] that returned; a call that threw leaves no [Send]. *)
Inductive Effect :=
| Log (l : Level) (line : LogLine)
| Send (s : sock) (msg : ServerMessage)
| Terminate (s : sock).

(** ** The [Map<string, SignalClient>]

    A JavaScript [Map] iterates in insertion order, [set] on a present key
    keeps the key's position, and keys are unique. *)
Definition ClientMap := list (string * ref).

Fixpoint Map_get (k : string) (m : ClientMap) : option ref :=
  match m with
  | [] => None
  | (k', v) :: m' => if String.eqb k' k then Some v else Map_get k m'
  end.

Definition Map_has (k : string) (m : ClientMap) : bool :=
  match Map_get k m with Some _ => true | None => false end.

Fixpoint Map_set (k : string) (v : ref) (m : ClientMap) : ClientMap :=
  match m with
  | [] => [(k, v)]
  | (k', v') :: m' =>
      if String.eqb k' k then (k, v) :: m' else (k', v') :: Map_set k v m'
  end.

Definition Map_delete (k : string) (m : ClientMap) : ClientMap :=
  List.filter (fun e => negb (String.eqb (fst e) k)) m.

Definition Map_keys (m : ClientMap) : list string := List.map fst m.
Definition Map_values (m : ClientMap) : list ref := List.map snd m.
Definition Map_entries (m : ClientMap) : list (string * ref) := m.

(** ** The world a handler runs in *)

Record World := mkWorld {
  clients : ClientMap;            (* this.clients *)
  objects : list SignalClient;    (* the SignalClient objects, by reference *)
  sockets : list ReadyState;      (* the WebSocket objects, by reference *)
  clock : Z;                      (* what Date.now() returns *)
  faults : list bool;             (* whether the next calls of socket.send throw *)
  trace : list Effect             (* effects so far, oldest first *)
}.

Definition with_clients (m : ClientMap) (w : World) : World :=
  mkWorld m (objects w) (sockets w) (clock w) (faults w) (trace w).
Definition with_objects (o : list SignalClient) (w : World) : World :=
  mkWorld (clients w) o (sockets w) (clock w) (faults w) (trace w).
Definition with_sockets (s : list ReadyState) (w : World) : World :=
  mkWorld (clients w) (objects w) s (clock w) (faults w) (trace w).
Definition with_clock (t : Z) (w : World) : World :=
  mkWorld (clients w) (objects w) (sockets w) t (faults w) (trace w).
Definition with_faults (f : list bool) (w : World) : World :=
  mkWorld (clients w) (objects w) (sockets w) (clock w) f (trace w).
Definition emit (e : Effect) (w : World) : World :=
  mkWorld (clients w) (objects w) (sockets w) (clock w) (faults w) (trace w ++ [e]).

(** Reading through a reference.  Every reference the server holds was
    returned by an allocation, so the default is never observed. *)
Definition no_client : SignalClient := mkSignalClient "" 0 0.

Definition deref (c : ref) (w : World) : SignalClient :=
  default no_client (objects w !! c).

Definition readyState (s : sock) (w : World) : ReadyState :=
  default CLOSED (sockets w !! s).

(** ** The handler monad: state and exceptions *)

Inductive Exn :=
| SyntaxError
| SendFailure (s : sock).

Inductive Outcome (A : Type) :=
| Returned (a : A) (w : World)
| Thrown (e : Exn) (w : World).
Arguments Returned {A} a w.
Arguments Thrown {A} e w.

Definition M (A : Type) := World -> Outcome A.

Definition ret {A} (a : A) : M A := fun w => Returned a w.

Definition bind {A B} (m : M A) (k : A -> M B) : M B :=
  fun w => match m w with
           | Returned a w' => k a w'
           | Thrown e w' => Thrown e w'
           end.

Definition throw {A} (e : Exn) : M A := fun w => Thrown e w.

Definition try_catch {A} (body : M A) (handler : Exn -> M A) : M A :=
  fun w => match body w with
           | Returned a w' => Returned a w'
           | Thrown e w' => handler e w'
           end.

Notation "x <- m ;; k" := (bind m (fun x => k))
  (at level 100, m at next level, right associativity).
Notation "m ;; k" := (bind m (fun _ => k))
  (at level 100, right associativity).

Definition world_of {A} (o : Outcome A) : World :=
  match o with Returned _ w => w | Thrown _ w => w end.

Definition reads {A} (f : World -> A) : M A := fun w => Returned (f w) w.
Definition writes (f : World -> World) : M unit := fun w => Returned tt (f w).

(** ** Primitive operations *)

Definition Date_now : M Z := reads clock.

Definition JSON_parse (messageData : RawData) : M SignalMessage :=
  match messageData with
  | Malformed => throw SyntaxError
  | Json m => ret m
  end.

(** [console.log], [console.warn], [console.error]. *)
Definition log (l : Level) (line : LogLine) : M unit := writes (emit (Log l line)).

(** How the next call of [socket.send] ends: [true] when it throws.  Each
    call uses up one announced outcome; with none announced it succeeds. *)
Definition next_fault (w : World) : bool :=
  match faults w with
  | b :: _ => b
  | [] => false
  end.

Definition consume_fault (w : World) : World := with_faults (tail (faults w)) w.

(** [socket.send(data)]: throws when the transport says so, and otherwise
    hands [data] to the peer. *)
Definition socket_send (s : sock) (data : ServerMessage) : M unit :=
  fun w =>
    if next_fault w
    then Thrown (SendFailure s) (consume_fault w)
    else Returned tt (emit (Send s data) (consume_fault w)).

(** [socket.terminate()]: the socket is destroyed; a socket that is not yet
    closed becomes [CLOSING], and its 'close' event follows later. *)
Definition socket_terminate (s : sock) : M unit :=
  writes (fun w =>
    let w' := emit (Terminate s) w in
    match readyState s w with
    | CLOSED => w'
    | _ => with_sockets (<[s := CLOSING]> (sockets w)) w'
    end).

Definition client_id (client : ref) : M string := reads (fun w => id (deref client w)).
Definition client_socket (client : ref) : M sock := reads (fun w => socket (deref client w)).
Definition client_lastSeen (client : ref) : M Z := reads (fun w => lastSeen (deref client w)).

(** [client.id = v] and [client.lastSeen = v]. *)
Definition set_client_id (client : ref) (v : string) : M unit :=
  writes (fun w =>
    let c := deref client w in
    with_objects (<[client := mkSignalClient v (socket c) (lastSeen c)]> (objects w)) w).

Definition set_client_lastSeen (client : ref) (v : Z) : M unit :=
  writes (fun w =>
    let c := deref client w in
    with_objects (<[client := mkSignalClient (id c) (socket c) v]> (objects w)) w).

(** Allocation of the object literal [{ id, socket, lastSeen }]. *)
Definition new_client (i : string) (s : sock) (t : Z) : M ref :=
  fun w => Returned (length (objects w))
                    (with_objects (objects w ++ [mkSignalClient i s t]) w).

Definition clients_get (k : string) : M (option ref) := reads (fun w => Map_get k (clients w)).
Definition clients_has (k : string) : M bool := reads (fun w => Map_has k (clients w)).
Definition clients_set (k : string) (v : ref) : M unit :=
  writes (fun w => with_clients (Map_set k v (clients w)) w).
Definition clients_delete (k : string) : M unit :=
  writes (fun w => with_clients (Map_delete k (clients w)) w).

(** [!v] for an optional string: [undefined] and the empty string are falsy. *)
Definition falsy (v : option string) : bool :=
  match v with
  | None => true
  | Some s => String.eqb s ""
  end.

(** ** The methods of [SignalingServer] *)

(** [broadcast]: the loop over [this.clients.values()].  The body never
    changes the map, so the loop runs over the values at its start. *)
Fixpoint broadcast_loop (cs : list ref) (message : ServerMessage) : M unit :=
  match cs with
  | [] => ret tt
  | client :: rest =>
      try_catch
        (s <- client_socket client ;;
         st <- reads (readyState s) ;;
         match st with
         | OPEN => socket_send s message
         | _ => ret tt
         end)
        (fun _ => cid <- client_id client ;; log warn (BroadcastError cid)) ;;
      broadcast_loop rest message
  end.

Definition broadcast (message : ServerMessage) : M unit :=
  cs <- reads (fun w => Map_values (clients w)) ;;
  broadcast_loop cs message.

Definition broadcastPeerList : M unit :=
  peerIds <- reads (fun w => Map_keys (clients w)) ;;
  broadcast (Peers peerIds) ;;
  log info (BroadcastedPeerList (length peerIds)).

Definition handleDisconnect (client : ref) : M unit :=
  cid <- client_id client ;;
  log info (ClientDisconnected cid) ;;
  cid <- client_id client ;;
  clients_delete cid ;;
  broadcastPeerList.

Definition sendToClient (client : ref) (message : ServerMessage) : M unit :=
  try_catch
    (s <- client_socket client ;;
     st <- reads (readyState s) ;;
     match st with
     | OPEN => socket_send s message
     | _ => ret tt
     end)
    (fun _ =>
       cid <- client_id client ;;
       log error (SendError cid) ;;
       handleDisconnect client).

Definition sendPeerList (client : ref) : M unit :=
  peerIds <- reads (fun w => Map_keys (clients w)) ;;
  sendToClient client (Peers peerIds) ;;
  cid <- client_id client ;;
  log info (SentPeerList cid (length peerIds)).

Definition relayMessage (message : SignalMessage) : M unit :=
  if falsy (target message) then
    log warn NoTarget
  else
    let tgt := default "" (target message) in
    targetClient <- clients_get tgt ;;
    match targetClient with
    | None => log warn (UnknownTarget tgt)
    | Some targetClient =>
        log info (Relaying (type message) (source message) tgt) ;;
        sendToClient targetClient (Relayed message)
    end.

(** [this.clients.get(newPeerId)?.id !== client.id]: the left side is
    [undefined] when the key is absent. *)
Definition holder_differs (holder : option ref) (cid : string) (w : World) : bool :=
  match holder with
  | None => true
  | Some h => negb (String.eqb (id (deref h w)) cid)
  end.

Definition handleRegister (message : SignalMessage) (client : ref) : M unit :=
  if falsy (peerId message) then
    cid <- client_id client ;;
    log warn (InvalidRegistration cid)
  else
    let newPeerId := default "" (peerId message) in
    taken <- clients_has newPeerId ;;
    holder <- clients_get newPeerId ;;
    cid <- client_id client ;;
    other <- reads (holder_differs holder cid) ;;
    if taken && other then
      log warn (IdInUse cid newPeerId) ;;
      sendToClient client (ErrorReply "Peer ID already in use")
    else
      clients_delete cid ;;
      set_client_id client newPeerId ;;
      clients_set newPeerId client ;;
      log info (ClientRegistered newPeerId) ;;
      sendToClient client (Registered newPeerId) ;;
      broadcastPeerList.

(** The [switch (message.type)] of [handleMessage]. *)
Definition dispatch (message : SignalMessage) (client : ref) : M unit :=
  let ty := type message in
  if String.eqb ty "register" then handleRegister message client
  else if String.eqb ty "offer" || String.eqb ty "answer"
          || String.eqb ty "ice-candidate" then relayMessage message
  else if String.eqb ty "get-peers" then sendPeerList client
  else if String.eqb ty "heartbeat" then ret tt
  else cid <- client_id client ;; log warn (UnknownMessageType cid ty).

Definition handleMessage (messageData : RawData) (client : ref) : M unit :=
  try_catch
    (message <- JSON_parse messageData ;;
     now <- Date_now ;;
     set_client_lastSeen client now ;;
     dispatch message client)
    (fun _ => cid <- client_id client ;; log error (ParseError cid)).

(** The callback of [wss.on('connection', ...)].  [socket] is the freshly
    accepted WebSocket and [tempId] the value returned by [uuidv4()].  The
    three [socket.on] registrations are the [Event]s below. *)
Definition onConnection (s : sock) (tempId : string) : M unit :=
  log info (NewConnection tempId) ;;
  now <- Date_now ;;
  client <- new_client tempId s now ;;
  clients_set tempId client ;;
  sendToClient client (Welcome tempId).

(** The callback of [socket.on('error', ...)]. *)
Definition onSocketError (client : ref) : M unit :=
  cid <- client_id client ;;
  log error (SocketError cid) ;;
  handleDisconnect client.

Definition HEARTBEAT_INTERVAL : Z := 30000.
Definition MAX_IDLE_TIME : Z := 90000.

(** The loop over [this.clients.entries()] in the interval callback.  The
    body deletes only the entry it is visiting, which a [Map] iterator
    tolerates: the entries still to come are those of the start. *)
Fixpoint sweep_loop (es : list (string * ref)) (now : Z) : M unit :=
  match es with
  | [] => ret tt
  | (i, client) :: rest =>
      seen <- client_lastSeen client ;;
      (if (now - seen >? MAX_IDLE_TIME)%Z then
         log warn (TimedOut i ((now - seen) / 1000)%Z) ;;
         try_catch
           (s <- client_socket client ;; socket_terminate s)
           (fun _ => ret tt) ;;
         clients_delete i
       else ret tt) ;;
      sweep_loop rest now
  end.

(** The callback passed to [setInterval] by [startHeartbeatCheck]. *)
Definition heartbeatCheck : M unit :=
  now <- Date_now ;;
  es <- reads (fun w => Map_entries (clients w)) ;;
  sweep_loop es now ;;
  broadcastPeerList.

(** ** Events and runs *)

(** The events the process reacts to.  [connection] carries the results of
    [uuidv4()] and [Date.now()]; [message] carries the frame and
    [Date.now()]; [timer] is one firing of the interval and carries
    [Date.now()].  [transport] is a change of a socket's [readyState] made by
    the WebSocket library, and [fault] announces how the coming calls of
    [socket.send] end. *)
Inductive Event :=
| connection (tempId : string) (now : Z)
| message (client : ref) (data : RawData) (now : Z)
| close (client : ref)
| socket_error (client : ref)
| timer (now : Z)
| server_error
| transport (s : sock) (st : ReadyState)
| fault (outcomes : list bool).

(** A connection's handlers exist once the connection was accepted. *)
Definition accepted (client : ref) (w : World) : bool :=
  Nat.ltb client (length (objects w)).

Definition step (w : World) (e : Event) : World :=
  match e with
  | connection tempId now =>
      let s := length (sockets w) in
      world_of (onConnection s tempId
                  (with_clock now (with_sockets (sockets w ++ [OPEN]) w)))
  | message client data now =>
      if accepted client w
      then world_of (handleMessage data client (with_clock now w))
      else w
  | close client =>
      if accepted client w then world_of (handleDisconnect client w) else w
  | socket_error client =>
      if accepted client w then world_of (onSocketError client w) else w
  | timer now => world_of (heartbeatCheck (with_clock now w))
  | server_error => world_of (log error ServerError w)
  | transport s st => with_sockets (<[s := st]> (sockets w)) w
  | fault outcomes => with_faults outcomes w
  end.

Definition run (w : World) (es : list Event) : World := fold_left step es w.

(** The state after the constructor: no client, no connection. *)
Definition initial : World := mkWorld [] [] [] 0 [] [].

(** [uuidv4()] returns the 36 characters of a UUID, never the empty string. *)
Definition well_formed (e : Event) : Prop :=
  match e with
  | connection tempId _ => tempId <> ""
  | _ => True
  end.

Definition reachable (w : World) : Prop :=
  exists es, Forall well_formed es /\ run initial es = w.

(** ** Vocabulary of the statements *)

(** The effects a handler added when it took [w] to [w']. *)
Definition effects_since (w w' : World) : list Effect :=
  drop (length (trace w)) (trace w').

(** Every key of the map is the [id] of the object stored under it. *)
Definition keys_are_ids (w : World) : Prop :=
  forall k c, In (k, c) (clients w) ->
    exists cl, objects w !! c = Some cl /\ id cl = k.

Definition registry_ok (w : World) : Prop :=
  List.NoDup (Map_keys (clients w)) /\ keys_are_ids w.

Definition no_empty_key (w : World) : Prop := ~ In "" (Map_keys (clients w)).

(** [w'] differs from [w] at most in its trace and in the announced faults. *)
Record unchanged (w w' : World) : Prop := mkUnchanged {
  same_clients : clients w' = clients w;
  same_objects : objects w' = objects w;
  same_sockets : sockets w' = sockets w;
  same_clock : clock w' = clock w
}.

(** What one round of [broadcast] may leave in the trace, and what it owes
    to a recipient whose socket is open: the message, or the warning logged
    when the send to it threw. *)
Definition bcast_effect (msg : ServerMessage) (e : Effect) : Prop :=
  (exists s, e = Send s msg) \/ (exists cid, e = Log warn (BroadcastError cid)).

Definition attempted (msg : ServerMessage) (w : World) (c : ref)
    (out : list Effect) : Prop :=
  readyState (socket (deref c w)) w = OPEN ->
  In (Send (socket (deref c w)) msg) out
  \/ In (Log warn (BroadcastError (id (deref c w)))) out.

(** [out] is a directory broadcast over the registry of [w]. *)
Definition directory_broadcast (w : World) (out : list Effect) : Prop :=
  exists sent,
    out = sent ++ [Log info (BroadcastedPeerList (length (clients w)))]
    /\ Forall (bcast_effect (Peers (Map_keys (clients w)))) sent
    /\ forall k c, In (k, c) (clients w) ->
         attempted (Peers (Map_keys (clients w))) w c sent.

(** What every handler guarantees between its start [w] and its end [w']:
    the two registry invariants are kept, no object changes its socket or
    its [lastSeen], no object is dropped, the clock is not touched, and the
    trace only grows. *)
Record evolves (w w' : World) : Prop := mkEvolves {
  ev_registry : registry_ok w -> registry_ok w';
  ev_nonempty : no_empty_key w -> no_empty_key w';
  ev_length : length (objects w') = length (objects w);
  ev_lastSeen : forall r, lastSeen (deref r w') = lastSeen (deref r w);
  ev_socket : forall r, socket (deref r w') = socket (deref r w);
  ev_clock : clock w' = clock w;
  ev_trace : exists out, trace w' = trace w ++ out
}.

(** The store after the three statements
    [this.clients.delete(client.id); client.id = newPeerId;
     this.clients.set(newPeerId, client)]. *)
Definition reassigned (client : ref) (newPeerId : string) (w : World) : World :=
  let c := deref client w in
  with_clients (Map_set newPeerId client (Map_delete (id c) (clients w)))
    (with_objects
       (<[client := mkSignalClient newPeerId (socket c) (lastSeen c)]> (objects w))
       w).

(** The store at the moment [handleMessage] dispatches a decoded frame. *)
Definition seen (client : ref) (now : Z) (w : World) : World :=
  let c := deref client w in
  with_objects (<[client := mkSignalClient (id c) (socket c) now]> (objects w))
    (with_clock now w).

(** The test of the sweep: [now - client.lastSeen > MAX_IDLE_TIME]. *)
Definition stale (now : Z) (w : World) (client : ref) : bool :=
  (now - lastSeen (deref client w) >? MAX_IDLE_TIME)%Z.

(** What the loop of the sweep leaves in the trace for one entry. *)
Definition eviction (now : Z) (w : World) (e : string * ref) : list Effect :=
  if stale now w (snd e)
  then [Log warn (TimedOut (fst e) ((now - lastSeen (deref (snd e) w)) / 1000)%Z);
        Terminate (socket (deref (snd e) w))]
  else [].

(** The store once [onConnection] has run up to [this.clients.set]. *)
Definition connected (s : sock) (tempId : string) (w : World) : World :=
  with_clients (Map_set tempId (length (objects w)) (clients w))
    (with_objects (objects w ++ [mkSignalClient tempId s (clock w)])
       (emit (Log info (NewConnection tempId)) w)).

(** The three ways [sendToClient] ends. *)
Inductive send_result (client : ref) (msg : ServerMessage) (w w' : World) : Prop :=
| send_skipped :
    readyState (socket (deref client w)) w <> OPEN ->
    w' = w ->
    send_result client msg w w'
| send_done :
    readyState (socket (deref client w)) w = OPEN ->
    next_fault w = false ->
    w' = emit (Send (socket (deref client w)) msg) (consume_fault w) ->
    send_result client msg w w'
| send_failed out :
    readyState (socket (deref client w)) w = OPEN ->
    next_fault w = true ->
    clients w' = Map_delete (id (deref client w)) (clients w) ->
    objects w' = objects w -> sockets w' = sockets w -> clock w' = clock w ->
    trace w' = trace w ++ [Log error (SendError (id (deref client w)));
                           Log info (ClientDisconnected (id (deref client w)))] ++ out ->
    directory_broadcast w' out ->
    send_result client msg w w'.

(** Unfolding of the record updates. *)
Ltac store_simpl :=
  cbn [clients objects sockets clock faults trace with_clients with_objects
       with_sockets with_clock with_faults emit consume_fault] in *.

(** [registry_ok] of a concrete world, by evaluation. *)
Ltac concrete_registry_ok :=
  split;
  [ vm_compute; repeat constructor;
    let H := fresh in
    intros H; repeat (destruct H as [H|H]; [discriminate H|]); exact H
  | let Hin := fresh in
    intros ? ? Hin; vm_compute in Hin;
    repeat (destruct Hin as [Hin|Hin];
            [injection Hin as <- <-; eexists; split; vm_compute; reflexivity|]);
    destruct Hin ].

(** ** Concrete frames and runs used in the examples *)

Definition register_frame (p : string) : RawData :=
  Json (mkSignalMessage "register" None None (Some p) None None None).

Definition offer_to_alice : SignalMessage :=
  mkSignalMessage "offer" (Some "bob") (Some "alice") None
    (Some (mkSessionDescription (Some "v=0") "offer")) None None.

(** Two connections, registered as alice (connection 0) and bob
    (connection 1). *)
Definition alice_and_bob : list Event :=
  [connection "t-a" 0; connection "t-b" 5;
   message 0 (register_frame "alice") 10;
   message 1 (register_frame "bob") 20].

(** Connection 0 registers as alice and then fails: its 'error' event and,
    later, its 'close' event both run [handleDisconnect].  Between the two,
    connection 1 registers as alice; after the second, connection 2 does. *)
Definition late_close : list Event :=
  [connection "t-a" 0; connection "t-b" 1; connection "t-c" 2;
   message 0 (register_frame "alice") 10;
   transport 0 CLOSING; socket_error 0;
   message 1 (register_frame "alice") 20;
   transport 0 CLOSED; close 0;
   message 2 (register_frame "alice") 30].

(** ** The server object: constructor and [stop]

    The part of the class around the registry: the listening port, the
    handle of the interval, the WebSocket server and the HTTP server.  What
    these do to the outside is kept in [lifecycle], each effect with the
    number of effects of [trace] that came before it, so that the order of
    the two lists is known. *)

Inductive LifecycleEffect :=
| LogStopping       (* this.log('Stopping signaling server') *)
| ClearInterval     (* clearInterval(this.heartbeatInterval) *)
| WssClose          (* this.wss.close() *)
| ServerClose.      (* this.server.close() *)

Record Process := mkProcess {
  core : World;
  port : Z;                      (* this.port *)
  heartbeatInterval : option Z;  (* the handle: the period it was set with *)
  interval_active : bool;        (* the interval still fires *)
  wss_closed : bool;
  server_closed : bool;
  lifecycle : list (nat * LifecycleEffect)
}.

Definition note (e : LifecycleEffect) (p : Process) : Process :=
  mkProcess (core p) (port p) (heartbeatInterval p) (interval_active p)
    (wss_closed p) (server_closed p)
    (lifecycle p ++ [(length (trace (core p)), e)]).

Definition with_core (w : World) (p : Process) : Process :=
  mkProcess w (port p) (heartbeatInterval p) (interval_active p)
    (wss_closed p) (server_closed p) (lifecycle p).

(** [constructor(port: number = 8080)]: the servers are created, the
    handlers of [setupWebSocketServer] are installed and
    [startHeartbeatCheck] sets the interval. *)
Definition construct (port_arg : option Z) : Process :=
  mkProcess initial (default 8080%Z port_arg) (Some HEARTBEAT_INTERVAL)
    true false false [].

(** The loop of [stop] over [this.clients.values()]. *)
Fixpoint stop_loop (cs : list ref) : M unit :=
  match cs with
  | [] => ret tt
  | client :: rest =>
      try_catch (s <- client_socket client ;; socket_terminate s)
                (fun _ => ret tt) ;;
      stop_loop rest
  end.

(** [this.clients.clear()]. *)
Definition clients_clear : M unit := writes (with_clients []).

Definition stop (p : Process) : Process :=
  let p := note LogStopping p in
  let p :=
    match heartbeatInterval p with
    | Some _ =>
        note ClearInterval
          (mkProcess (core p) (port p) (heartbeatInterval p) false
             (wss_closed p) (server_closed p) (lifecycle p))
    | None => p
    end in
  let p :=
    with_core
      (world_of ((cs <- reads (fun w => Map_values (clients w)) ;;
                  stop_loop cs ;;
                  clients_clear) (core p)))
      p in
  let p :=
    note WssClose
      (mkProcess (core p) (port p) (heartbeatInterval p) (interval_active p)
         true (server_closed p) (lifecycle p)) in
  note ServerClose
    (mkProcess (core p) (port p) (heartbeatInterval p) (interval_active p)
       (wss_closed p) true (lifecycle p)).

(** An event reaches its handler unless the interval was cleared (for
    [timer]) or the WebSocket server was closed (for [connection]). *)
Definition process_step (p : Process) (e : Event) : Process :=
  match e with
  | timer _ => if interval_active p then with_core (step (core p) e) p else p
  | connection _ _ => if wss_closed p then p else with_core (step (core p) e) p
  | _ => with_core (step (core p) e) p
  end.

Definition process_run (p : Process) (es : list Event) : Process :=
  fold_left process_step es p.

(** The events that still arrive once every socket was terminated: no
    frame comes in any more. *)
Definition not_a_frame (e : Event) : bool :=
  match e with
  | message _ _ _ => false
  | _ => true
  end.

(** ** More vocabulary *)

Definition is_open (w : World) (client : ref) : bool :=
  match readyState (socket (deref client w)) w with
  | OPEN => true
  | _ => false
  end.

Definition is_send (e : Effect) : bool :=
  match e with
  | Send _ _ => true
  | _ => false
  end.

(** Every client record carries the socket of its own connection: the
    record allocated at position [c] holds socket [c]. *)
Definition own_sockets (w : World) : Prop :=
  length (sockets w) = length (objects w)
  /\ forall c, c < length (objects w) -> socket (deref c w) = c.

(** ** One round of [broadcast], effect by effect

    [broadcast] goes through the registry in order and calls [socket.send]
    once for every entry whose socket is open.  The [i]-th of these calls
    throws when the [i]-th announced outcome says so; the recipient of a
    call that returns gets the message, the recipient of a call that throws
    gets nothing and is named in a warning. *)

(** The entries [broadcast] writes to, in registry order. *)
Definition recipients (w : World) : list ref :=
  List.filter (is_open w) (Map_values (clients w)).

(** Whether the [i]-th coming call of [socket.send] throws. *)
Definition announced (tape : list bool) (i : nat) : bool :=
  default false (tape !! i).

(** What one recipient gets out of the round. *)
Definition outcome (msg : ServerMessage) (w : World) (throws : bool) (c : ref)
    : Effect :=
  if throws
  then Log warn (BroadcastError (id (deref c w)))
  else Send (socket (deref c w)) msg.

(** The effects of [broadcast(msg)] run in [w] with the outcomes [tape]
    announced. *)
Definition broadcast_round (msg : ServerMessage) (w : World) (tape : list bool)
    : list Effect :=
  imap (fun i c => outcome msg w (announced tape i) c) (recipients w).

(** The effects of [broadcastPeerList]: a round with the ids of the
    registry, then the log line. *)
Definition peers_broadcast (w : World) (tape : list bool) : list Effect :=
  broadcast_round (Peers (Map_keys (clients w))) w tape
  ++ [Log info (BroadcastedPeerList (length (clients w)))].

(** The outcomes still announced after a round. *)
Definition after_broadcast (w : World) (tape : list bool) : list bool :=
  drop (length (recipients w)) tape.

(** * Properties *)

(** ** The map *)

Section MapFacts.
Implicit Types (m : ClientMap) (k : string) (v : ref).

Lemma Map_get_In k v m : Map_get k m = Some v -> In (k, v) m.
Proof.
  induction m as [|[k' v'] m IH]; simpl; [discriminate|].
  destruct (String.eqb_spec k' k) as [->|Hne].
  - intros [= ->]. now left.
  - intros H. right. auto.
Qed.

Lemma Map_get_None k m : Map_get k m = None <-> ~ In k (Map_keys m).
Proof.
  induction m as [|[k' v'] m IH]; simpl.
  - split; [intros _ []|reflexivity].
  - destruct (String.eqb_spec k' k) as [->|Hne].
    + split; [discriminate|]. intros H. exfalso. apply H. now left.
    + rewrite IH. split.
      * intros H [Heq|Hin]; [congruence|auto].
      * intros H Hin. apply H. now right.
Qed.

Lemma In_Map_keys k v m : In (k, v) m -> In k (Map_keys m).
Proof. intros H. apply (in_map fst) in H. exact H. Qed.

Lemma In_Map_get k v m :
  List.NoDup (Map_keys m) -> In (k, v) m -> Map_get k m = Some v.
Proof.
  induction m as [|[k' v'] m IH]; simpl; [intros _ []|].
  intros Hnd Hin. inversion Hnd as [|? ? Hnotin Hnd']; subst.
  destruct Hin as [[= -> ->]|Hin].
  - now rewrite String.eqb_refl.
  - destruct (String.eqb_spec k' k) as [->|Hne]; [|auto].
    exfalso. apply Hnotin. eapply In_Map_keys. exact Hin.
Qed.

Lemma In_Map_delete k k' v m :
  In (k', v) (Map_delete k m) <-> In (k', v) m /\ k' <> k.
Proof.
  unfold Map_delete. rewrite filter_In. simpl.
  destruct (String.eqb_spec k' k); simpl; intuition congruence.
Qed.

Lemma In_keys_filter (f : string * ref -> bool) k m :
  In k (Map_keys (List.filter f m)) -> In k (Map_keys m).
Proof.
  unfold Map_keys. rewrite !in_map_iff. intros [e [He Hin]].
  apply filter_In in Hin. exists e. tauto.
Qed.

Lemma NoDup_keys_filter (f : string * ref -> bool) m :
  List.NoDup (Map_keys m) -> List.NoDup (Map_keys (List.filter f m)).
Proof.
  induction m as [|e m IH]; simpl; [auto|].
  intros Hnd. inversion Hnd as [|? ? Hnotin Hnd']; subst.
  destruct (f e); simpl; [|auto].
  constructor; [|auto]. intros Hin. apply Hnotin.
  eapply In_keys_filter. exact Hin.
Qed.

Lemma NoDup_Map_delete k m :
  List.NoDup (Map_keys m) -> List.NoDup (Map_keys (Map_delete k m)).
Proof. apply NoDup_keys_filter. Qed.

Lemma Map_get_delete_eq k m : Map_get k (Map_delete k m) = None.
Proof.
  apply Map_get_None. unfold Map_keys. rewrite in_map_iff.
  intros [[k' v] [Hk Hin]]. simpl in Hk. subst k'.
  apply In_Map_delete in Hin. tauto.
Qed.

Lemma Map_get_delete_ne k k' m :
  k' <> k -> Map_get k' (Map_delete k m) = Map_get k' m.
Proof.
  intros Hne. induction m as [|[k0 v0] m IH]; simpl; [reflexivity|].
  destruct (String.eqb_spec k0 k) as [->|Hk]; simpl.
  - destruct (String.eqb_spec k k'); [congruence|exact IH].
  - now rewrite IH.
Qed.

Lemma Map_get_set_eq k v m : Map_get k (Map_set k v m) = Some v.
Proof.
  induction m as [|[k0 v0] m IH]; simpl.
  - now rewrite String.eqb_refl.
  - destruct (String.eqb_spec k0 k) as [->|Hk]; simpl.
    + now rewrite String.eqb_refl.
    + destruct (String.eqb_spec k0 k); [congruence|exact IH].
Qed.

Lemma Map_get_set_ne k k' v m :
  k' <> k -> Map_get k' (Map_set k v m) = Map_get k' m.
Proof.
  intros Hne. induction m as [|[k0 v0] m IH]; simpl.
  - destruct (String.eqb_spec k k'); [congruence|reflexivity].
  - destruct (String.eqb_spec k0 k) as [->|Hk]; simpl.
    + destruct (String.eqb_spec k k'); [congruence|reflexivity].
    + now rewrite IH.
Qed.

Lemma Map_keys_set k v m :
  Map_keys (Map_set k v m)
  = if Map_has k m then Map_keys m else Map_keys m ++ [k].
Proof.
  unfold Map_has. induction m as [|[k0 v0] m IH]; simpl; [reflexivity|].
  destruct (String.eqb_spec k0 k) as [->|Hk]; simpl; [reflexivity|].
  rewrite IH. now destruct (Map_get k m).
Qed.

Lemma NoDup_Map_set k v m :
  List.NoDup (Map_keys m) -> List.NoDup (Map_keys (Map_set k v m)).
Proof.
  intros Hnd. rewrite Map_keys_set. unfold Map_has.
  destruct (Map_get k m) eqn:Hget; [exact Hnd|].
  apply Map_get_None in Hget.
  apply NoDup_rev in Hnd. rewrite <- (rev_involutive (_ ++ _)).
  apply NoDup_rev. rewrite rev_app_distr. simpl.
  constructor; [|exact Hnd]. now rewrite <- in_rev.
Qed.

Lemma In_Map_set k v k' v' m :
  List.NoDup (Map_keys m) ->
  In (k', v') (Map_set k v m) ->
  (k' = k /\ v' = v) \/ (k' <> k /\ In (k', v') m).
Proof.
  intros Hnd Hin.
  apply In_Map_get in Hin; [|now apply NoDup_Map_set].
  destruct (String.eqb_spec k' k) as [->|Hne].
  - rewrite Map_get_set_eq in Hin. left. split; congruence.
  - rewrite Map_get_set_ne in Hin by exact Hne.
    right. split; [exact Hne|]. now apply Map_get_In.
Qed.

(** With unique keys, deleting a key removes the one entry stored under
    it and nothing else. *)
Lemma Map_delete_entry k v m :
  List.NoDup (Map_keys m) -> In (k, v) m ->
  forall e, In e (Map_delete k m) <-> In e m /\ e <> (k, v).
Proof.
  intros Hnd Hin [k' v']. rewrite In_Map_delete. split.
  - intros [H Hne]. split; [exact H|congruence].
  - intros [H Hne]. split; [exact H|]. intros ->. apply Hne.
    f_equal. pose proof (In_Map_get _ _ _ Hnd H) as H1.
    pose proof (In_Map_get _ _ _ Hnd Hin) as H2. congruence.
Qed.
End MapFacts.

(** ** Broadcasts *)

Lemma unchanged_refl w : unchanged w w.
Proof. now constructor. Qed.

Lemma unchanged_trans w1 w2 w3 : unchanged w1 w2 -> unchanged w2 w3 -> unchanged w1 w3.
Proof. intros [] []. constructor; congruence. Qed.

Lemma unchanged_deref w w' c : unchanged w w' -> deref c w' = deref c w.
Proof. intros []. unfold deref. congruence. Qed.

Lemma unchanged_readyState w w' s : unchanged w w' -> readyState s w' = readyState s w.
Proof. intros []. unfold readyState. congruence. Qed.

(** One iteration of the loop of [broadcast]. *)
Lemma broadcast_one client msg w :
  exists w' out,
    try_catch
      (s <- client_socket client ;;
       st <- reads (readyState s) ;;
       match st with
       | OPEN => socket_send s msg
       | _ => ret tt
       end)
      (fun _ => cid <- client_id client ;; log warn (BroadcastError cid)) w
    = Returned tt w'
    /\ unchanged w w' /\ trace w' = trace w ++ out
    /\ Forall (bcast_effect msg) out /\ attempted msg w client out.
Proof.
  unfold try_catch, bind, client_socket, reads, attempted. simpl.
  destruct (readyState (socket (deref client w)) w) eqn:Hst; simpl;
    try (exists w, []; rewrite app_nil_r;
         split; [reflexivity|]; split; [apply unchanged_refl|];
         split; [reflexivity|]; split; [constructor|discriminate]).
  unfold socket_send. destruct (next_fault w); simpl.
  - eexists _, [_]. split; [reflexivity|]. split; [now constructor|].
    split; [reflexivity|]. split.
    + constructor; [|constructor]. right. eauto.
    + intros _. right. now left.
  - eexists _, [_]. split; [reflexivity|]. split; [now constructor|].
    split; [reflexivity|]. split.
    + constructor; [|constructor]. left. eauto.
    + intros _. left. now left.
Qed.

Lemma broadcast_loop_spec msg cs : forall w,
  exists w' out,
    broadcast_loop cs msg w = Returned tt w'
    /\ unchanged w w' /\ trace w' = trace w ++ out
    /\ Forall (bcast_effect msg) out
    /\ forall c, In c cs -> attempted msg w c out.
Proof.
  induction cs as [|client rest IH]; intros w; simpl.
  - exists w, []. rewrite app_nil_r.
    split; [reflexivity|]. split; [apply unchanged_refl|].
    split; [reflexivity|]. split; [constructor|intros c []].
  - destruct (broadcast_one client msg w) as (w1 & out1 & E1 & U1 & T1 & F1 & A1).
    destruct (IH w1) as (w2 & out2 & E2 & U2 & T2 & F2 & A2).
    exists w2, (out1 ++ out2). unfold bind at 1. rewrite E1, E2.
    split; [reflexivity|]. split; [eapply unchanged_trans; eauto|].
    split; [now rewrite T2, T1, app_assoc|].
    split; [now apply Forall_app|].
    intros c [<-|Hin] Hopen.
    + destruct (A1 Hopen); [left|right]; apply in_or_app; now left.
    + specialize (A2 c Hin). unfold attempted in A2.
      rewrite (unchanged_deref _ _ c U1), (unchanged_readyState _ _ _ U1) in A2.
      destruct (A2 Hopen); [left|right]; apply in_or_app; now right.
Qed.

Lemma broadcastPeerList_spec w :
  exists w' out,
    broadcastPeerList w = Returned tt w'
    /\ unchanged w w' /\ trace w' = trace w ++ out
    /\ directory_broadcast w out.
Proof.
  unfold broadcastPeerList, broadcast, bind, reads, log, writes. simpl.
  destruct (broadcast_loop_spec (Peers (Map_keys (clients w)))
              (Map_values (clients w)) w) as (w1 & out & E & U & T & F & A).
  rewrite E. eexists _, (out ++ [_]). split; [reflexivity|].
  split; [destruct U; now constructor|].
  split; [simpl; now rewrite T, app_assoc|].
  exists out. unfold Map_keys at 1. rewrite length_map.
  split; [reflexivity|]. split; [exact F|].
  intros k c Hin. apply A. unfold Map_values.
  apply (in_map snd) in Hin. exact Hin.
Qed.

Lemma directory_broadcast_unchanged w w' out :
  unchanged w w' -> directory_broadcast w out -> directory_broadcast w' out.
Proof.
  intros U (sent & -> & F & A). pose proof U as [Hc Ho Hs Ht].
  exists sent. rewrite Hc. split; [reflexivity|]. split; [exact F|].
  intros k c Hin. unfold attempted.
  rewrite (unchanged_deref _ _ c U), (unchanged_readyState _ _ _ U).
  exact (A k c Hin).
Qed.

(** ** Disconnects and sends *)

Lemma handleDisconnect_spec client w :
  exists w' out,
    handleDisconnect client w = Returned tt w'
    /\ clients w' = Map_delete (id (deref client w)) (clients w)
    /\ objects w' = objects w /\ sockets w' = sockets w /\ clock w' = clock w
    /\ trace w' = trace w ++ Log info (ClientDisconnected (id (deref client w))) :: out
    /\ directory_broadcast w' out.
Proof.
  unfold handleDisconnect, bind, client_id, reads, log, clients_delete, writes.
  simpl.
  match goal with |- context [broadcastPeerList ?w0] =>
    destruct (broadcastPeerList_spec w0) as (w' & out & E & U & T & D)
  end.
  rewrite E. exists w', out. destruct U as [Hc Ho Hs Ht].
  split; [reflexivity|]. simpl in *.
  split; [exact Hc|]. split; [exact Ho|]. split; [exact Hs|]. split; [exact Ht|].
  split; [now rewrite T, <- app_assoc|].
  eapply directory_broadcast_unchanged; [|exact D]. now constructor.
Qed.

Lemma sendToClient_eq client msg w :
  sendToClient client msg w =
  match readyState (socket (deref client w)) w with
  | OPEN =>
      if next_fault w
      then handleDisconnect client
             (emit (Log error (SendError (id (deref client w)))) (consume_fault w))
      else Returned tt (emit (Send (socket (deref client w)) msg) (consume_fault w))
  | _ => Returned tt w
  end.
Proof.
  unfold sendToClient, try_catch, bind, client_socket, client_id, reads, log, writes.
  simpl. destruct (readyState (socket (deref client w)) w); try reflexivity.
  unfold socket_send. now destruct (next_fault w).
Qed.

(** ** What handlers keep *)

Lemma evolves_refl w : evolves w w.
Proof. constructor; auto. exists []. now rewrite app_nil_r. Qed.

Lemma evolves_trans w1 w2 w3 : evolves w1 w2 -> evolves w2 w3 -> evolves w1 w3.
Proof.
  intros [R1 N1 L1 S1 K1 C1 [o1 T1]] [R2 N2 L2 S2 K2 C2 [o2 T2]].
  constructor.
  - auto.
  - auto.
  - congruence.
  - intros r. now rewrite S2, S1.
  - intros r. now rewrite K2, K1.
  - congruence.
  - exists (o1 ++ o2). now rewrite T2, T1, app_assoc.
Qed.

(** A handler that only removes entries from the map keeps everything. *)
Lemma evolves_filter (f : string * ref -> bool) w w' out :
  clients w' = List.filter f (clients w) ->
  objects w' = objects w -> clock w' = clock w ->
  trace w' = trace w ++ out ->
  evolves w w'.
Proof.
  intros Hc Ho Ht Htr. constructor; unfold deref; try congruence; [| |eauto].
  - intros [Hnd Hk]. split.
    + rewrite Hc. now apply NoDup_keys_filter.
    + intros k c Hin. rewrite Hc in Hin. apply filter_In in Hin.
      rewrite Ho. apply Hk. tauto.
  - unfold no_empty_key. intros Hne Hin. rewrite Hc in Hin.
    apply Hne. eapply In_keys_filter. exact Hin.
Qed.

Lemma filter_all {A} (l : list A) : List.filter (fun _ => true) l = l.
Proof. induction l; simpl; congruence. Qed.

Lemma evolves_unchanged w w' out :
  unchanged w w' -> trace w' = trace w ++ out -> evolves w w'.
Proof.
  intros [Hc Ho Hs Ht] Htr.
  apply (evolves_filter (fun _ => true) w w' out); auto.
  now rewrite filter_all.
Qed.

Lemma handleDisconnect_evolves client w :
  exists w', handleDisconnect client w = Returned tt w'
             /\ evolves w w' /\ sockets w' = sockets w.
Proof.
  destruct (handleDisconnect_spec client w)
    as (w' & out & E & Hc & Ho & Hs & Ht & Htr & _).
  exists w'. split; [exact E|]. split; [|exact Hs].
  eapply evolves_filter; eauto.
Qed.

Lemma sendToClient_evolves client msg w :
  exists w', sendToClient client msg w = Returned tt w'
             /\ evolves w w' /\ sockets w' = sockets w.
Proof.
  rewrite sendToClient_eq.
  destruct (readyState (socket (deref client w)) w);
    try (exists w; split; [reflexivity|]; split; [apply evolves_refl|reflexivity]).
  destruct (next_fault w).
  - match goal with |- context [handleDisconnect _ ?w0] =>
      destruct (handleDisconnect_evolves client w0) as (w' & E & Ev & Hs)
    end.
    exists w'. split; [exact E|]. split; [|exact Hs].
    eapply evolves_trans; [|exact Ev].
    eapply evolves_unchanged; [now constructor|reflexivity].
  - eexists. split; [reflexivity|]. split; [|reflexivity].
    eapply evolves_unchanged; [now constructor|reflexivity].
Qed.

Lemma broadcastPeerList_evolves w :
  exists w', broadcastPeerList w = Returned tt w'
             /\ evolves w w' /\ sockets w' = sockets w.
Proof.
  destruct (broadcastPeerList_spec w) as (w' & out & E & U & T & _).
  exists w'. split; [exact E|]. split; [|now destruct U].
  eapply evolves_unchanged; eauto.
Qed.

(** ** Registration *)

Lemma lookup_insert_default (l : list SignalClient) c x r :
  default no_client (<[c := x]> l !! r)
  = if decide (c = r /\ c < length l) then x else default no_client (l !! r).
Proof.
  rewrite list_lookup_insert. repeat case_decide; try reflexivity; tauto.
Qed.

Lemma accepted_lt client w : accepted client w = true -> client < length (objects w).
Proof. unfold accepted. now intros H%Nat.ltb_lt. Qed.

Lemma falsy_false v :
  falsy v = false -> exists p, v = Some p /\ p <> "" /\ default "" v = p.
Proof.
  destruct v as [p|]; simpl; [|discriminate].
  destruct (String.eqb_spec p ""); [discriminate|]. eauto.
Qed.

Lemma reassigned_evolves client p w :
  client < length (objects w) -> p <> "" -> evolves w (reassigned client p w).
Proof.
  intros Hlt Hp. unfold reassigned. constructor; unfold deref; store_simpl.
  - intros [Hnd Hk]. split; store_simpl.
    + now apply NoDup_Map_set, NoDup_Map_delete.
    + intros k c Hin. store_simpl.
      apply In_Map_set in Hin; [|now apply NoDup_Map_delete].
      destruct Hin as [[-> ->]|[Hne Hin]].
      * eexists. split; [now apply list_lookup_insert_eq|reflexivity].
      * apply In_Map_delete in Hin. destruct Hin as [Hin Hold].
        destruct (Hk k c Hin) as (cl & Hcl & Hid).
        exists cl. split; [|exact Hid].
        rewrite list_lookup_insert_ne; [exact Hcl|].
        intros ->. apply Hold. now rewrite Hcl.
  - unfold no_empty_key. store_simpl. intros Hne Hin.
    rewrite Map_keys_set in Hin.
    destruct (Map_has p _).
    + apply Hne. eapply In_keys_filter. exact Hin.
    + apply in_app_or in Hin. destruct Hin as [Hin|[Heq|[]]]; [|congruence].
      apply Hne. eapply In_keys_filter. exact Hin.
  - apply length_insert.
  - intros r. rewrite lookup_insert_default. now destruct (decide _) as [[-> _]|].
  - intros r. rewrite lookup_insert_default. now destruct (decide _) as [[-> _]|].
  - reflexivity.
  - exists []. now rewrite app_nil_r.
Qed.

Lemma handleRegister_eq msg client w :
  handleRegister msg client w =
  if falsy (peerId msg) then
    Returned tt (emit (Log warn (InvalidRegistration (id (deref client w)))) w)
  else
    let p := default "" (peerId msg) in
    let cid := id (deref client w) in
    if Map_has p (clients w) && holder_differs (Map_get p (clients w)) cid w then
      sendToClient client (ErrorReply "Peer ID already in use")
        (emit (Log warn (IdInUse cid p)) w)
    else
      (sendToClient client (Registered p) ;; broadcastPeerList)
        (emit (Log info (ClientRegistered p)) (reassigned client p w)).
Proof.
  unfold handleRegister. destruct (falsy (peerId msg)); [reflexivity|].
  unfold bind at 1 2 3 4. unfold clients_has, clients_get, client_id, reads. simpl.
  destruct (Map_has _ _ && holder_differs _ _ _); reflexivity.
Qed.

Lemma handleRegister_evolves msg client w :
  accepted client w = true ->
  exists w', handleRegister msg client w = Returned tt w'
             /\ evolves w w' /\ sockets w' = sockets w.
Proof.
  intros Hacc%accepted_lt. rewrite handleRegister_eq.
  destruct (falsy (peerId msg)) eqn:Hf.
  - eexists. split; [reflexivity|]. split; [|reflexivity].
    eapply evolves_unchanged; [now constructor|reflexivity].
  - destruct (falsy_false _ Hf) as (p & _ & Hp & ->). cbv zeta.
    destruct (Map_has _ _ && holder_differs _ _ _).
    + match goal with |- context [sendToClient _ _ ?w0] =>
        destruct (sendToClient_evolves client (ErrorReply "Peer ID already in use") w0)
          as (w' & E & Ev & Hs)
      end.
      exists w'. split; [exact E|]. split; [|exact Hs].
      eapply evolves_trans; [|exact Ev].
      eapply evolves_unchanged; [now constructor|reflexivity].
    + unfold bind.
      match goal with |- context [sendToClient _ _ ?w0] =>
        destruct (sendToClient_evolves client (Registered p) w0)
          as (w1 & E1 & Ev1 & Hs1)
      end.
      rewrite E1.
      destruct (broadcastPeerList_evolves w1) as (w2 & E2 & Ev2 & Hs2).
      exists w2. split; [exact E2|]. split; [|now rewrite Hs2, Hs1].
      eapply evolves_trans; [|exact Ev2].
      eapply evolves_trans; [|exact Ev1].
      eapply evolves_trans; [apply (reassigned_evolves client p w Hacc Hp)|].
      eapply evolves_unchanged; [now constructor|reflexivity].
Qed.

(** ** Relay, peer list, dispatch *)

Lemma relayMessage_eq msg w :
  relayMessage msg w =
  if falsy (target msg) then Returned tt (emit (Log warn NoTarget) w)
  else
    let tgt := default "" (target msg) in
    match Map_get tgt (clients w) with
    | None => Returned tt (emit (Log warn (UnknownTarget tgt)) w)
    | Some c =>
        sendToClient c (Relayed msg)
          (emit (Log info (Relaying (type msg) (source msg) tgt)) w)
    end.
Proof.
  unfold relayMessage. destruct (falsy (target msg)); [reflexivity|].
  unfold bind at 1. unfold clients_get, reads. cbv zeta.
  now destruct (Map_get _ (clients w)).
Qed.

Lemma relayMessage_evolves msg w :
  exists w', relayMessage msg w = Returned tt w'
             /\ evolves w w' /\ sockets w' = sockets w.
Proof.
  rewrite relayMessage_eq. destruct (falsy (target msg)).
  - eexists. split; [reflexivity|]. split; [|reflexivity].
    eapply evolves_unchanged; [now constructor|reflexivity].
  - cbv zeta. destruct (Map_get _ (clients w)) as [c|].
    + match goal with |- context [sendToClient _ ?m ?w0] =>
        destruct (sendToClient_evolves c m w0) as (w' & E & Ev & Hs)
      end.
      exists w'. split; [exact E|]. split; [|exact Hs].
      eapply evolves_trans; [|exact Ev].
      eapply evolves_unchanged; [now constructor|reflexivity].
    + eexists. split; [reflexivity|]. split; [|reflexivity].
      eapply evolves_unchanged; [now constructor|reflexivity].
Qed.

Lemma sendPeerList_evolves client w :
  exists w', sendPeerList client w = Returned tt w'
             /\ evolves w w' /\ sockets w' = sockets w.
Proof.
  unfold sendPeerList, bind, reads, client_id, log, writes.
  destruct (sendToClient_evolves client (Peers (Map_keys (clients w))) w)
    as (w1 & E & Ev & Hs).
  rewrite E. eexists. split; [reflexivity|]. split; [|exact Hs].
  eapply evolves_trans; [exact Ev|].
  eapply evolves_unchanged; [now constructor|reflexivity].
Qed.

Lemma dispatch_evolves msg client w :
  accepted client w = true ->
  exists w', dispatch msg client w = Returned tt w'
             /\ evolves w w' /\ sockets w' = sockets w.
Proof.
  intros Hacc. unfold dispatch. cbv zeta.
  destruct (String.eqb (type msg) "register");
    [now apply handleRegister_evolves|].
  destruct (_ || _); [apply relayMessage_evolves|].
  destruct (String.eqb (type msg) "get-peers"); [apply sendPeerList_evolves|].
  destruct (String.eqb (type msg) "heartbeat").
  - exists w. split; [reflexivity|]. split; [apply evolves_refl|reflexivity].
  - eexists. split; [reflexivity|]. split; [|reflexivity].
    eapply evolves_unchanged; [now constructor|reflexivity].
Qed.

Lemma accepted_seen client now r w : accepted r (seen client now w) = accepted r w.
Proof. unfold accepted, seen. store_simpl. now rewrite length_insert. Qed.

Lemma handleMessage_malformed client w :
  handleMessage Malformed client w
  = Returned tt (emit (Log error (ParseError (id (deref client w)))) w).
Proof. reflexivity. Qed.

Lemma handleMessage_json msg client now w :
  accepted client w = true ->
  handleMessage (Json msg) client (with_clock now w)
  = dispatch msg client (seen client now w).
Proof.
  intros Hacc. unfold handleMessage, try_catch, bind.
  unfold JSON_parse, ret, Date_now, reads, set_client_lastSeen, writes.
  fold (seen client now w).
  destruct (dispatch_evolves msg client (seen client now w)) as (w' & E & _).
  - now rewrite accepted_seen.
  - unfold seen in *. store_simpl. unfold deref in *. store_simpl. now rewrite E.
Qed.

(** ** The sweep *)

Lemma fold_left_pointwise {A B} (f g : A -> B -> A) (l : list B) : forall a,
  (forall x y, f x y = g x y) -> fold_left f l a = fold_left g l a.
Proof.
  induction l as [|b l IH]; intros a H; simpl; [reflexivity|].
  rewrite H. now apply IH.
Qed.

(** The body of the loop for an entry that timed out. *)
Lemma evict_entry i client seconds w :
  exists w',
    (log warn (TimedOut i seconds) ;;
     try_catch (s <- client_socket client ;; socket_terminate s)
               (fun _ => ret tt) ;;
     clients_delete i) w = Returned tt w'
    /\ clients w' = Map_delete i (clients w)
    /\ objects w' = objects w /\ clock w' = clock w
    /\ length (sockets w') = length (sockets w)
    /\ faults w' = faults w
    /\ trace w' = trace w ++ [Log warn (TimedOut i seconds);
                              Terminate (socket (deref client w))].
Proof.
  unfold bind, log, writes, try_catch, bind, client_socket, reads,
    socket_terminate, writes, clients_delete, writes.
  eexists. split; [reflexivity|].
  destruct (readyState _ _); unfold deref; store_simpl;
    rewrite ?length_insert, <- ?app_assoc; repeat split; reflexivity.
Qed.

Lemma sweep_loop_cons i client rest now w :
  sweep_loop ((i, client) :: rest) now w =
  if stale now w client then
    ((log warn (TimedOut i ((now - lastSeen (deref client w)) / 1000)%Z) ;;
      try_catch (s <- client_socket client ;; socket_terminate s)
                (fun _ => ret tt) ;;
      clients_delete i) ;;
     sweep_loop rest now) w
  else sweep_loop rest now w.
Proof.
  cbn [sweep_loop]. unfold bind at 1. unfold client_lastSeen, reads, stale.
  now destruct (now - lastSeen (deref client w) >? MAX_IDLE_TIME)%Z.
Qed.

Lemma sweep_loop_spec now es : forall w,
  exists w',
    sweep_loop es now w = Returned tt w'
    /\ clients w'
       = fold_left (fun m e => if stale now w (snd e) then Map_delete (fst e) m else m)
           es (clients w)
    /\ objects w' = objects w /\ clock w' = clock w
    /\ length (sockets w') = length (sockets w)
    /\ faults w' = faults w
    /\ trace w' = trace w ++ flat_map (eviction now w) es.
Proof.
  induction es as [|[i client] rest IH]; intros w.
  - exists w. simpl. now rewrite app_nil_r.
  - rewrite sweep_loop_cons. cbn [fold_left flat_map fst snd].
    unfold eviction at 1. cbn [fst snd].
    destruct (stale now w client) eqn:Hst.
    + destruct (evict_entry i client ((now - lastSeen (deref client w)) / 1000)%Z w)
        as (w0 & E0 & Hcl & Hobj & Hclk & Hlen & Hfl & Htr0).
      unfold bind at 1. rewrite E0.
      destruct (IH w0) as (w' & E & Hc & Ho & Ht & Hs & Hf & Htr).
      assert (Hstale : forall c, stale now w0 c = stale now w c)
        by (intros c; unfold stale, deref; now rewrite Hobj).
      assert (Hev : forall e, eviction now w0 e = eviction now w e)
        by (intros e; unfold eviction, deref; rewrite Hstale, Hobj; reflexivity).
      exists w'. split; [exact E|].
      split; [rewrite Hc, Hcl; apply fold_left_pointwise; intros m e; now rewrite Hstale|].
      split; [congruence|]. split; [congruence|]. split; [congruence|].
      split; [congruence|].
      rewrite Htr, Htr0, <- app_assoc. f_equal. simpl. do 2 f_equal.
      apply flat_map_ext. exact Hev.
    + destruct (IH w) as (w' & E & Hc & Ho & Ht & Hs & Hf & Htr).
      exists w'. repeat (split; [assumption|]). exact Htr.
Qed.

Lemma filter_twice {A} (f g : A -> bool) (l : list A) :
  List.filter f (List.filter g l) = List.filter (fun x => g x && f x) l.
Proof.
  induction l as [|x l IH]; simpl; [reflexivity|].
  destruct (g x); simpl; [destruct (f x)|]; simpl; congruence.
Qed.

Lemma deletions_filter (st : ref -> bool) (es : list (string * ref)) :
  forall m : ClientMap,
    fold_left (fun m e => if st (snd e) then Map_delete (fst e) m else m) es m
    = List.filter
        (fun e => negb (existsb (fun e' => st (snd e') && String.eqb (fst e) (fst e')) es))
        m.
Proof.
  induction es as [|e' rest IH]; intros m; simpl.
  - now rewrite filter_all.
  - rewrite IH. destruct (st (snd e')); simpl.
    + unfold Map_delete. rewrite filter_twice. apply filter_ext.
      intros e. now rewrite negb_orb.
    + reflexivity.
Qed.

(** Run over the entries of the map itself, the deletions of the sweep keep
    exactly the entries that did not time out. *)
Lemma sweep_keeps (st : ref -> bool) (m : ClientMap) :
  List.NoDup (Map_keys m) ->
  fold_left (fun m e => if st (snd e) then Map_delete (fst e) m else m) m m
  = List.filter (fun e => negb (st (snd e))) m.
Proof.
  intros Hnd. rewrite deletions_filter. apply filter_ext_in.
  intros [k c] Hin. f_equal. cbn [fst snd].
  destruct (st c) eqn:Hc.
  - apply existsb_exists. exists (k, c). cbn [fst snd].
    now rewrite Hc, String.eqb_refl.
  - apply Bool.not_true_is_false. intros H. apply existsb_exists in H.
    destruct H as ([k' c'] & Hin' & H). cbn [fst snd] in H.
    apply andb_true_iff in H. destruct H as [Hst Hk].
    apply String.eqb_eq in Hk. subst k'.
    pose proof (In_Map_get _ _ _ Hnd Hin) as H1.
    pose proof (In_Map_get _ _ _ Hnd Hin') as H2. congruence.
Qed.

Lemma heartbeatCheck_spec w :
  exists w1 w' out,
    sweep_loop (clients w) (clock w) w = Returned tt w1
    /\ heartbeatCheck w = Returned tt w'
    /\ clients w'
       = fold_left (fun m e => if stale (clock w) w (snd e)
                               then Map_delete (fst e) m else m)
           (clients w) (clients w)
    /\ objects w' = objects w /\ clock w' = clock w
    /\ sockets w' = sockets w1
    /\ trace w' = trace w ++ flat_map (eviction (clock w) w) (clients w) ++ out
    /\ directory_broadcast w' out.
Proof.
  unfold heartbeatCheck, bind, Date_now, reads, Map_entries.
  destruct (sweep_loop_spec (clock w) (clients w) w)
    as (w1 & E1 & Hc & Ho & Ht & Hs & Hf & Htr).
  rewrite E1.
  destruct (broadcastPeerList_spec w1) as (w' & out & E & U & T & D).
  exists w1, w', out. pose proof U as [Uc Uo Us Ut].
  split; [reflexivity|]. split; [exact E|].
  split; [congruence|]. split; [congruence|]. split; [congruence|].
  split; [exact Us|]. split; [now rewrite T, Htr, app_assoc|].
  eapply directory_broadcast_unchanged; eauto.
Qed.

(** ** Every event keeps the registry well formed *)

Lemma registry_ok_store w w' :
  clients w' = clients w -> objects w' = objects w ->
  registry_ok w -> registry_ok w'.
Proof.
  intros Hc Ho [Hnd Hk]. split; [now rewrite Hc|].
  intros k c Hin. rewrite Hc in Hin. rewrite Ho. now apply Hk.
Qed.

Lemma no_empty_key_store w w' :
  clients w' = clients w -> no_empty_key w -> no_empty_key w'.
Proof. unfold no_empty_key. now intros ->. Qed.

Lemma seen_registry_ok client now w : registry_ok w -> registry_ok (seen client now w).
Proof.
  intros [Hnd Hk]. split; [exact Hnd|].
  intros k c Hin. unfold seen in *. store_simpl.
  destruct (Hk k c Hin) as (cl & Hcl & Hid).
  rewrite list_lookup_insert. case_decide as Hd.
  - destruct Hd as [-> _]. eexists. split; [reflexivity|].
    cbn [id]. unfold deref. now rewrite Hcl.
  - eauto.
Qed.

Lemma onConnection_eq s tempId w :
  onConnection s tempId w
  = sendToClient (length (objects w)) (Welcome tempId) (connected s tempId w).
Proof. reflexivity. Qed.

Lemma connected_registry_ok s tempId w :
  registry_ok w -> registry_ok (connected s tempId w).
Proof.
  intros [Hnd Hk]. unfold connected. split; store_simpl.
  - now apply NoDup_Map_set.
  - intros k c Hin. store_simpl. apply In_Map_set in Hin; [|exact Hnd].
    destruct Hin as [[-> ->]|[_ Hin]].
    + eexists. split; [now apply list_lookup_middle|reflexivity].
    + destruct (Hk k c Hin) as (cl & Hcl & Hid). exists cl.
      split; [|exact Hid]. rewrite lookup_app_l; [exact Hcl|].
      apply lookup_lt_is_Some. eauto.
Qed.

Lemma connected_no_empty_key s tempId w :
  tempId <> "" -> no_empty_key w -> no_empty_key (connected s tempId w).
Proof.
  unfold no_empty_key, connected. store_simpl. intros Hne Hw Hin.
  rewrite Map_keys_set in Hin. destruct (Map_has tempId (clients w)); [auto|].
  apply in_app_or in Hin. destruct Hin as [Hin|[Heq|[]]]; [auto|congruence].
Qed.

Lemma step_keeps w e :
  (registry_ok w -> registry_ok (step w e))
  /\ (well_formed e -> no_empty_key w -> no_empty_key (step w e)).
Proof.
  destruct e as [tempId now|client data now|client|client|now| |s st|outcomes];
    cbn [step well_formed].
  - rewrite onConnection_eq.
    match goal with |- context [sendToClient ?c ?m ?w0] =>
      destruct (sendToClient_evolves c m w0) as (w' & E & Ev & _)
    end.
    rewrite E. cbn [world_of]. split.
    + intros H. apply (ev_registry _ _ Ev), connected_registry_ok.
      revert H. now apply registry_ok_store.
    + intros Hwf H. apply (ev_nonempty _ _ Ev), connected_no_empty_key; [exact Hwf|].
      revert H. now apply no_empty_key_store.
  - destruct (accepted client w) eqn:Hacc; [|tauto].
    destruct data as [|msg].
    + rewrite handleMessage_malformed. cbn [world_of]. split.
      * now apply registry_ok_store.
      * intros _. now apply no_empty_key_store.
    + rewrite handleMessage_json by exact Hacc.
      destruct (dispatch_evolves msg client (seen client now w)) as (w' & E & Ev & _);
        [now rewrite accepted_seen|].
      rewrite E. cbn [world_of]. split.
      * intros H. now apply (ev_registry _ _ Ev), seen_registry_ok.
      * intros _ H. apply (ev_nonempty _ _ Ev). revert H.
        now apply no_empty_key_store.
  - destruct (accepted client w); [|tauto].
    destruct (handleDisconnect_evolves client w) as (w' & E & Ev & _).
    rewrite E. cbn [world_of]. split; [apply Ev|intros _; apply Ev].
  - destruct (accepted client w); [|tauto].
    unfold onSocketError, bind, client_id, reads, log, writes.
    match goal with |- context [handleDisconnect _ ?w0] =>
      destruct (handleDisconnect_evolves client w0) as (w' & E & Ev & _)
    end.
    rewrite E. cbn [world_of]. split.
    + intros H. apply (ev_registry _ _ Ev). revert H. now apply registry_ok_store.
    + intros _ H. apply (ev_nonempty _ _ Ev). revert H. now apply no_empty_key_store.
  - destruct (heartbeatCheck_spec (with_clock now w))
      as (w1 & w' & out & _ & E & Hc & Ho & Ht & _ & Htr & _).
    rewrite E. cbn [world_of]. rewrite deletions_filter in Hc.
    assert (Ev : evolves (with_clock now w) w') by (eapply evolves_filter; eauto).
    split.
    + intros H. apply (ev_registry _ _ Ev). revert H. now apply registry_ok_store.
    + intros _ H. apply (ev_nonempty _ _ Ev). revert H. now apply no_empty_key_store.
  - split; [now apply registry_ok_store|intros _; now apply no_empty_key_store].
  - split; [now apply registry_ok_store|intros _; now apply no_empty_key_store].
  - split; [now apply registry_ok_store|intros _; now apply no_empty_key_store].
Qed.

Lemma run_snoc w es e : run w (es ++ [e]) = step (run w es) e.
Proof. unfold run. now rewrite fold_left_app. Qed.

Lemma initial_registry_ok : registry_ok initial /\ no_empty_key initial.
Proof.
  split; [split|]; cbn.
  - constructor.
  - intros k c [].
  - intros [].
Qed.

Lemma reachable_registry_ok w : reachable w -> registry_ok w /\ no_empty_key w.
Proof.
  intros (es & Hwf & <-). induction es as [|e es IH] using rev_ind.
  - apply initial_registry_ok.
  - apply Forall_app in Hwf. destruct Hwf as [Hes He].
    apply Forall_inv in He. destruct (IH Hes) as [Hr Hn].
    rewrite run_snoc. destruct (step_keeps (run initial es) e) as [H1 H2].
    split; auto.
Qed.

(** ** Reading the trace *)

Lemma effects_since_app w w' out :
  trace w' = trace w ++ out -> effects_since w w' = out.
Proof. unfold effects_since. intros ->. apply drop_app_length. Qed.

Lemma directory_broadcast_sends w out s m :
  directory_broadcast w out -> In (Send s m) out ->
  m = Peers (Map_keys (clients w)).
Proof.
  intros (sent & -> & F & _) Hin. apply in_app_or in Hin.
  destruct Hin as [Hin|[[=]|[]]].
  rewrite List.Forall_forall in F. destruct (F _ Hin) as [[s' [= _ ->]]|[cid [=]]].
  reflexivity.
Qed.

Lemma sendToClient_cases client msg w :
  exists w', sendToClient client msg w = Returned tt w' /\ send_result client msg w w'.
Proof.
  rewrite sendToClient_eq.
  destruct (readyState (socket (deref client w)) w) eqn:Hst;
    try (exists w; split; [reflexivity|]; apply send_skipped; congruence).
  destruct (next_fault w) eqn:Hf.
  - match goal with |- context [handleDisconnect _ ?w0] =>
      destruct (handleDisconnect_spec client w0)
        as (w' & out & E & Hc & Ho & Hs & Ht & Htr & D)
    end.
    exists w'. split; [exact E|].
    apply (send_failed _ _ _ _ out); auto.
    rewrite Htr. store_simpl. now rewrite <- app_assoc.
  - eexists. split; [reflexivity|]. now apply send_done.
Qed.

(** ** Frames at the level of events *)

Lemma step_message_json w client msg now :
  accepted client w = true ->
  step w (message client (Json msg) now)
  = world_of (dispatch msg client (seen client now w)).
Proof. intros Hacc. cbn [step]. now rewrite Hacc, handleMessage_json. Qed.

Lemma dispatch_register msg client w :
  type msg = "register" -> dispatch msg client w = handleRegister msg client w.
Proof. unfold dispatch. now intros ->. Qed.

Lemma dispatch_relay msg client w :
  type msg = "offer" \/ type msg = "answer" \/ type msg = "ice-candidate" ->
  dispatch msg client w = relayMessage msg w.
Proof. unfold dispatch. now intros [-> | [-> | ->]]. Qed.

Lemma deref_seen client now r w :
  id (deref r (seen client now w)) = id (deref r w)
  /\ socket (deref r (seen client now w)) = socket (deref r w).
Proof.
  unfold seen, deref. store_simpl. rewrite lookup_insert_default.
  case_decide as Hd; [destruct Hd as [-> _]|]; now split.
Qed.

Lemma lastSeen_seen client now w :
  accepted client w = true -> lastSeen (deref client (seen client now w)) = now.
Proof.
  intros Hacc%accepted_lt. unfold seen, deref. store_simpl.
  now rewrite list_lookup_insert_eq.
Qed.

(** C10: a register frame whose [peerId] is the empty string is handled
    exactly like one without [peerId]: the two frames lead to the same
    world, and on an accepted connection that world is the one at dispatch
    plus one warning in the log, so no reply is sent and the registry and
    every client's id stay as they were; only [lastSeen] was updated. *)
Theorem empty_peerId_is_missing_peerId w client msg now :
  type msg = "register" -> peerId msg = Some "" ->
  let absent :=
    mkSignalMessage (type msg) (source msg) (target msg) None
                    (offer msg) (answer msg) (candidate msg) in
  step w (message client (Json msg) now) = step w (message client (Json absent) now)
  /\ (accepted client w = true ->
      step w (message client (Json msg) now)
      = emit (Log warn (InvalidRegistration (id (deref client w))))
             (seen client now w)).
Proof.
  intros Hty Hpeer absent.
  assert (Heq : forall w0, dispatch msg client w0
                = Returned tt (emit (Log warn (InvalidRegistration (id (deref client w0)))) w0)).
  { intros w0. rewrite dispatch_register, handleRegister_eq by exact Hty.
    now rewrite Hpeer. }
  assert (Heq' : forall w0, dispatch absent client w0
                = Returned tt (emit (Log warn (InvalidRegistration (id (deref client w0)))) w0)).
  { intros w0. rewrite dispatch_register, handleRegister_eq by exact Hty.
    reflexivity. }
  destruct (accepted client w) eqn:Hacc.
  - rewrite !step_message_json, Heq, Heq' by exact Hacc. cbn [world_of].
    split; [reflexivity|]. intros _.
    now rewrite (proj1 (deref_seen client now client w)).
  - split; [|discriminate]. cbn [step]. now rewrite Hacc.
Qed.

Lemma empty_peerId_is_missing_peerId_witness :
  let w := run initial alice_and_bob in
  let msg := mkSignalMessage "register" (Some "bob") None (Some "") None None None in
  type msg = "register" /\ peerId msg = Some "" /\ accepted 1 w = true
  /\ step w (message 1 (Json msg) 30)
     = emit (Log warn (InvalidRegistration "bob")) (seen 1 30 w).
Proof.
  intros w msg.
  split; [reflexivity|]. split; [reflexivity|]. split; [reflexivity|].
  exact (proj2 (empty_peerId_is_missing_peerId w 1 msg 30 eq_refl eq_refl) eq_refl).
Defined.

(** C5, as amended: on an accepted connection, every frame that decodes has
    the client's [lastSeen] set to the current time before it is
    dispatched, whatever its type, and [lastSeen] still has that value when
    the handler ends; a frame that fails to decode is logged and dropped:
    nothing but the log line is added, so [lastSeen], the registry and the
    sockets stay as they were and the connection stays open. *)
Theorem lastSeen_updated_on_decoded_frames w client now :
  accepted client w = true ->
  (forall msg,
      step w (message client (Json msg) now)
      = world_of (dispatch msg client (seen client now w))
      /\ lastSeen (deref client (seen client now w)) = now
      /\ lastSeen (deref client (step w (message client (Json msg) now))) = now)
  /\ step w (message client Malformed now)
     = emit (Log error (ParseError (id (deref client w)))) (with_clock now w).
Proof.
  intros Hacc. split.
  - intros msg. rewrite step_message_json by exact Hacc.
    split; [reflexivity|]. split; [now apply lastSeen_seen|].
    destruct (dispatch_evolves msg client (seen client now w)) as (w' & E & Ev & _);
      [now rewrite accepted_seen|].
    rewrite E. cbn [world_of]. rewrite (ev_lastSeen _ _ Ev).
    now apply lastSeen_seen.
  - cbn [step]. now rewrite Hacc, handleMessage_malformed.
Qed.

Lemma lastSeen_updated_on_decoded_frames_witness :
  let w := run initial alice_and_bob in
  accepted 0 w = true
  /\ lastSeen (deref 0 (step w (message 0 (Json offer_to_alice) 77))) = 77%Z
  /\ step w (message 0 Malformed 77)
     = emit (Log error (ParseError "alice")) (with_clock 77 w).
Proof.
  intros w. split; [reflexivity|].
  destruct (lastSeen_updated_on_decoded_frames w 0 77 eq_refl) as [Hjson Hbad].
  split; [exact (proj2 (proj2 (Hjson offer_to_alice)))|exact Hbad].
Defined.

(** C5, as stated, fails on a frame that does not decode: [JSON.parse]
    throws before [lastSeen] is assigned.  Connection 0 was last seen at
    time 10; a malformed frame at time 77 leaves that value in place. *)
Lemma malformed_frame_keeps_lastSeen :
  let w := run initial alice_and_bob in
  let w' := step w (message 0 Malformed 77) in
  accepted 0 w = true
  /\ lastSeen (deref 0 w) = 10%Z
  /\ lastSeen (deref 0 w') = 10%Z
  /\ lastSeen (deref 0 w') <> 77%Z.
Proof. repeat split; try reflexivity. discriminate. Qed.

(** ** The liveness sweep *)

Lemma step_timer_spec w now :
  exists out,
    clients (step w (timer now))
    = fold_left (fun m e => if stale now w (snd e) then Map_delete (fst e) m else m)
        (clients w) (clients w)
    /\ objects (step w (timer now)) = objects w
    /\ effects_since w (step w (timer now))
       = flat_map (eviction now w) (clients w) ++ out
    /\ directory_broadcast (step w (timer now)) out.
Proof.
  cbn [step].
  destruct (heartbeatCheck_spec (with_clock now w))
    as (w1 & w' & out & _ & E & Hc & Ho & _ & _ & Htr & D).
  rewrite E. cbn [world_of]. exists out.
  split; [exact Hc|]. split; [exact Ho|]. split; [|exact D].
  apply effects_since_app. exact Htr.
Qed.

Lemma stale_spec now w client :
  stale now w client = true <-> (now - lastSeen (deref client w) > 90 * 1000)%Z.
Proof.
  unfold stale, MAX_IDLE_TIME.
  destruct (Z.gtb_spec (now - lastSeen (deref client w)) 90000); split;
    intros; try lia; discriminate.
Qed.

(** C6: a sweep at time [now] keeps exactly the entries whose idle time
    [now - lastSeen] does not exceed 90 seconds (90000 ms).  An entry idle
    for longer has [terminate] called on its socket and is gone from the
    registry when the sweep ends; every other entry still maps its id to the
    same connection. *)
Theorem sweep_evicts_idle_clients w now :
  registry_ok w ->
  let w' := step w (timer now) in
  clients w' = List.filter (fun e => negb (stale now w (snd e))) (clients w)
  /\ forall k c, In (k, c) (clients w) ->
       ((now - lastSeen (deref c w) > 90 * 1000)%Z ->
          Map_get k (clients w') = None
          /\ In (Terminate (socket (deref c w))) (effects_since w w'))
       /\ ((now - lastSeen (deref c w) <= 90 * 1000)%Z ->
          Map_get k (clients w') = Some c).
Proof.
  intros [Hnd _] w'. subst w'.
  destruct (step_timer_spec w now) as (out & Hc & _ & Heff & _).
  rewrite sweep_keeps in Hc by exact Hnd.
  split; [exact Hc|]. intros k c Hin. rewrite Hc, Heff. split.
  - intros Hidle. apply stale_spec in Hidle. split.
    + apply Map_get_None. unfold Map_keys. rewrite in_map_iff.
      intros ([k' c'] & Hk & Hin'). cbn [fst] in Hk. subst k'.
      apply filter_In in Hin'. destruct Hin' as [Hin' Hkeep]. cbn [snd] in Hkeep.
      pose proof (In_Map_get _ _ _ Hnd Hin) as H1.
      pose proof (In_Map_get _ _ _ Hnd Hin') as H2.
      assert (c' = c) by congruence. subst c'.
      rewrite Hidle in Hkeep. discriminate.
    + apply in_or_app. left. apply in_flat_map. exists (k, c).
      split; [exact Hin|]. unfold eviction. cbn [fst snd]. rewrite Hidle.
      right. now left.
  - intros Hfresh. apply In_Map_get; [now apply NoDup_keys_filter|].
    apply filter_In. split; [exact Hin|]. cbn [snd].
    destruct (stale now w c) eqn:Hst; [|reflexivity].
    apply stale_spec in Hst. lia.
Qed.

Lemma sweep_evicts_idle_clients_witness :
  let w := run initial alice_and_bob in
  let w' := step w (timer 90011) in
  clients w = [("alice", 0); ("bob", 1)]
  /\ clients w' = [("bob", 1)]
  /\ In (Terminate 0) (effects_since w w').
Proof.
  intros w w'.
  assert (Hok : registry_ok w) by concrete_registry_ok.
  destruct (sweep_evicts_idle_clients w 90011 Hok) as [Hc Hentries].
  split; [reflexivity|]. split; [exact Hc|].
  refine (proj2 (proj1 (Hentries "alice" 0 _) _)); [now left|reflexivity].
Defined.


(** ** What a send leaves in the trace *)

(** Whatever [sendToClient] adds to the trace, a [Send] in it is the message
    itself, handed to the open socket of the client without a failure, or a
    [peers] message of the broadcast that follows a failure. *)
Lemma send_result_sends client msg w w' :
  send_result client msg w w' ->
  exists out,
    trace w' = trace w ++ out
    /\ forall s m, In (Send s m) out ->
         (m = msg /\ s = socket (deref client w)
          /\ readyState s w = OPEN /\ next_fault w = false
          /\ w' = emit (Send s msg) (consume_fault w))
         \/ exists ids, m = Peers ids.
Proof.
  intros [Hno ->|Hopen Hf ->|out Hopen Hf Hc Ho Hs Ht Htr D].
  - exists []. split; [now rewrite app_nil_r|]. intros s m [].
  - eexists [_]. split; [reflexivity|].
    intros s m [[= <- <-]|[]]. left. now rewrite Hopen.
  - eexists. split; [exact Htr|].
    intros s m [[=]|[[=]|Hin]]. right.
    rewrite (directory_broadcast_sends _ _ _ _ D Hin). eauto.
Qed.

(** ** Relay *)

(** C3, as amended: a relay frame with target [T] is delivered, unmodified,
    to the socket of the connection registered under [T] if and only if [T]
    is in the registry when the frame is dispatched, that connection's
    socket is open and the send does not throw.  When [T] is not in the
    registry, or the frame has no target, the registry is unchanged and the
    handler adds one warning to the log and nothing else: nothing is
    delivered and the sender gets no reply. *)
Theorem relay_delivered_iff_target_open w sender msg now :
  reachable w ->
  accepted sender w = true ->
  type msg = "offer" \/ type msg = "answer" \/ type msg = "ice-candidate" ->
  let w' := step w (message sender (Json msg) now) in
  (forall T s, target msg = Some T ->
     (In (Send s (Relayed msg)) (effects_since w w')
      <-> exists c, Map_get T (clients w) = Some c
                    /\ s = socket (deref c w)
                    /\ readyState s w = OPEN
                    /\ next_fault w = false))
  /\ (forall T, target msg = Some T -> Map_get T (clients w) = None ->
        clients w' = clients w
        /\ exists line, effects_since w w' = [Log warn line])
  /\ (target msg = None ->
        clients w' = clients w /\ effects_since w w' = [Log warn NoTarget]).
Proof.
  intros Hreach Hacc Hty w'. subst w'.
  destruct (reachable_registry_ok _ Hreach) as [_ Hnonempty].
  rewrite step_message_json by exact Hacc.
  rewrite dispatch_relay, relayMessage_eq by exact Hty.
  set (w0 := seen sender now w).
  destruct (target msg) as [T|] eqn:Htgt;
    cbn [falsy from_option Datatypes.id]; cbv zeta.
  2:{ cbn [world_of]. split; [intros T s [=]|]. split; [intros T [=]|].
      intros _. split; [reflexivity|]. now apply effects_since_app. }
  destruct (String.eqb_spec T "") as [->|HT].
  { cbn [world_of].
    assert (Hnone : Map_get "" (clients w) = None) by now apply Map_get_None.
    assert (Heff : effects_since w (emit (Log warn NoTarget) w0) = [Log warn NoTarget])
      by now apply effects_since_app.
    split; [|split; [|intros [=]]].
    - intros T s [= <-]. rewrite Heff, Hnone. split.
      + intros [[=]|[]].
      + intros (c & [=] & _).
    - intros T [= <-] _. split; [reflexivity|]. eauto. }
  change (clients w0) with (clients w).
  destruct (Map_get T (clients w)) as [c|] eqn:Hget.
  2:{ cbn [world_of].
      assert (Heff : effects_since w (emit (Log warn (UnknownTarget T)) w0)
                     = [Log warn (UnknownTarget T)]) by now apply effects_since_app.
      split; [|split; [|intros [=]]].
      - intros T' s [= <-]. rewrite Heff, Hget. split.
        + intros [[=]|[]].
        + intros (c & [=] & _).
      - intros T' [= <-] _. split; [reflexivity|]. eauto. }
  match goal with |- context [sendToClient c ?m ?w1] =>
    destruct (sendToClient_cases c m w1) as (w' & E & R);
    destruct (send_result_sends _ _ _ _ R) as (out & Htr & Hsends)
  end.
  rewrite E. cbn [world_of].
  assert (Heff : effects_since w w'
                 = Log info (Relaying (type msg) (source msg) T) :: out).
  { apply effects_since_app. rewrite Htr. store_simpl.
    now rewrite <- app_assoc. }
  split; [|split; [intros T' [= <-] Hn; congruence|intros [=]]].
  intros T' s [= <-]. rewrite Heff, Hget. split.
  - intros [[=]|Hin]. destruct (Hsends _ _ Hin) as [(_ & Hs & Hopen & Hf & _)|[ids [=]]].
    exists c. split; [reflexivity|].
    change (socket (deref c (emit _ w0))) with (socket (deref c w0)) in Hs.
    unfold w0 in Hs. rewrite (proj2 (deref_seen sender now c w)) in Hs.
    split; [exact Hs|]. split; [exact Hopen|exact Hf].
  - intros (c' & [= <-] & -> & Hopen & Hf). right.
    assert (Hsock : socket (deref c (emit (Log info (Relaying (type msg) (source msg) T)) w0))
                    = socket (deref c w))
      by apply (proj2 (deref_seen sender now c w)).
    destruct R as [Hno _|_ _ ->|out' _ Hf' _ _ _ _ _ _].
    + exfalso. apply Hno. rewrite Hsock. exact Hopen.
    + store_simpl. apply app_inv_head in Htr.
      subst out. rewrite Hsock. now left.
    + change (next_fault (emit _ w0)) with (next_fault w) in Hf'. congruence.
Qed.

Lemma relay_delivered_iff_target_open_witness :
  let w := run initial alice_and_bob in
  let w' := step w (message 1 (Json offer_to_alice) 30) in
  reachable w /\ accepted 1 w = true
  /\ In (Send 0 (Relayed offer_to_alice)) (effects_since w w').
Proof.
  intros w w'.
  assert (Hr : reachable w).
  { exists alice_and_bob. split; [repeat constructor; discriminate|reflexivity]. }
  destruct (relay_delivered_iff_target_open w 1 offer_to_alice 30 Hr eq_refl
              (or_introl eq_refl)) as [Hiff _].
  split; [exact Hr|]. split; [reflexivity|].
  apply (Hiff "alice" 0 eq_refl). exists 0. repeat split; reflexivity.
Defined.

(** C3, as stated, fails when the target is in the registry but its socket
    is no longer open.  Alice's socket has begun to close and her 'close'
    event has not fired yet, so "alice" is still a key of the registry;
    bob's offer to alice is logged as relayed and never handed to
    [socket.send]. *)
Lemma relay_to_closing_socket_is_dropped :
  let w := step (run initial alice_and_bob) (transport 0 CLOSING) in
  let w' := step w (message 1 (Json offer_to_alice) 30) in
  Map_get "alice" (clients w) = Some 0
  /\ effects_since w w' = [Log info (Relaying "offer" (Some "bob") "alice")]
  /\ ~ In (Send 0 (Relayed offer_to_alice)) (effects_since w w').
Proof.
  vm_compute. split; [reflexivity|]. split; [reflexivity|].
  intros [H|[]]. discriminate H.
Qed.

(** ** Registration conflicts *)

(** C4, as stated, fails when the send of the error reply throws: the
    failure is handled as a disconnect of the requester.  Bob asks for
    "alice", which maps to connection 0; the send to bob throws, so bob gets
    no error reply, his entry is removed from the registry and the directory
    is broadcast. *)
Lemma rejected_registration_with_failed_reply :
  let w := step (run initial alice_and_bob) (fault [true]) in
  let w' := step w (message 1 (register_frame "alice") 30) in
  clients w = [("alice", 0); ("bob", 1)]
  /\ readyState 1 w = OPEN
  /\ clients w' = [("alice", 0)]
  /\ effects_since w w'
     = [Log warn (IdInUse "bob" "alice"); Log error (SendError "bob");
        Log info (ClientDisconnected "bob");
        Send 0 (Peers ["alice"]); Log info (BroadcastedPeerList 1)].
Proof. vm_compute. repeat split; reflexivity. Qed.

(** ** A registration that takes over an id in use *)

(** In the registry itself an id has one holder and a connection one id. *)
Lemma registry_one_holder w k1 k2 c1 c2 :
  reachable w ->
  In (k1, c1) (clients w) -> In (k2, c2) (clients w) ->
  (k1 = k2 <-> c1 = c2).
Proof.
  intros Hreach H1 H2.
  destruct (reachable_registry_ok _ Hreach) as [[Hnd Hk] _]. split.
  - intros <-. pose proof (In_Map_get _ _ _ Hnd H1).
    pose proof (In_Map_get _ _ _ Hnd H2). congruence.
  - intros <-. destruct (Hk _ _ H1) as (cl1 & E1 & <-).
    destruct (Hk _ _ H2) as (cl2 & E2 & <-). congruence.
Qed.

(** C1 fails on the run [late_close].  The second [handleDisconnect] of
    connection 0 deletes the key "alice", which by then belongs to
    connection 1; connection 1 stays open, keeps "alice" in its record and
    is in the registry no more.  Connection 2 then registers as alice.  When
    connection 1 asks for "alice" again, the test of [handleRegister]
    compares the record ids, finds "alice" on both sides and sees no
    conflict: the entry of connection 2 is replaced by one for connection 1,
    connection 1 is told [registered], and nobody gets an error. *)
Theorem register_replaces_mapping_of_other_connection :
  let w := run initial late_close in
  let w' := step w (message 1 (register_frame "alice") 40) in
  reachable w
  /\ clients (run initial (firstn 7 late_close)) = [("t-c", 2); ("alice", 1)]
  /\ clients (run initial (firstn 9 late_close)) = [("t-c", 2)]
  /\ clients w = [("alice", 2)]
  /\ readyState (socket (deref 1 w)) w = OPEN
  /\ readyState (socket (deref 2 w)) w = OPEN
  /\ clients w' = [("alice", 1)]
  /\ effects_since w w'
     = [Log info (ClientRegistered "alice"); Send 1 (Registered "alice");
        Send 1 (Peers ["alice"]); Log info (BroadcastedPeerList 1)].
Proof.
  split.
  - exists late_close. split; [repeat constructor; discriminate|reflexivity].
  - vm_compute. repeat split; reflexivity.
Qed.

(** * Further properties of the code *)

(** ** [broadcast] *)

Lemma broadcast_one_exact client msg w :
  exists w',
    try_catch
      (s <- client_socket client ;;
       st <- reads (readyState s) ;;
       match st with
       | OPEN => socket_send s msg
       | _ => ret tt
       end)
      (fun _ => cid <- client_id client ;; log warn (BroadcastError cid)) w
    = Returned tt w'
    /\ unchanged w w'
    /\ if is_open w client
       then faults w' = tail (faults w)
            /\ trace w' = trace w ++
                 [if next_fault w
                  then Log warn (BroadcastError (id (deref client w)))
                  else Send (socket (deref client w)) msg]
       else w' = w.
Proof.
  unfold try_catch, bind, client_socket, reads, is_open. simpl.
  destruct (readyState (socket (deref client w)) w) eqn:Hst; simpl;
    try (exists w; split; [reflexivity|]; split; [apply unchanged_refl|reflexivity]).
  unfold socket_send. destruct (next_fault w); simpl;
    (eexists; split; [reflexivity|]; split; [now constructor|]; split; reflexivity).
Qed.

Lemma is_open_unchanged w w' c : unchanged w w' -> is_open w' c = is_open w c.
Proof.
  intros U. unfold is_open.
  now rewrite (unchanged_deref _ _ c U), (unchanged_readyState _ _ _ U).
Qed.

Lemma filter_pointwise {A} (f g : A -> bool) (l : list A) :
  (forall x, f x = g x) -> List.filter f l = List.filter g l.
Proof. intros H. apply filter_ext. exact H. Qed.

Lemma broadcast_loop_count msg cs : forall w,
  exists w' out,
    broadcast_loop cs msg w = Returned tt w'
    /\ unchanged w w' /\ trace w' = trace w ++ out
    /\ length out = length (List.filter (is_open w) cs)
    /\ (forallb negb (faults w) = true ->
        out = List.map (fun c => Send (socket (deref c w)) msg)
                (List.filter (is_open w) cs)).
Proof.
  induction cs as [|client rest IH]; intros w; cbn [broadcast_loop].
  - exists w, []. rewrite app_nil_r.
    split; [reflexivity|]. split; [apply unchanged_refl|]. now repeat split.
  - destruct (broadcast_one_exact client msg w) as (w1 & E1 & U1 & H1).
    destruct (IH w1) as (w2 & out2 & E2 & U2 & T2 & L2 & F2).
    unfold bind at 1. rewrite E1, E2.
    rewrite (filter_pointwise _ _ rest (fun c => is_open_unchanged _ _ c U1)) in L2, F2.
    assert (Hderef : forall c, deref c w1 = deref c w)
      by (intros c; now apply unchanged_deref).
    cbn [List.filter]. destruct (is_open w client).
    + destruct H1 as [Hf T1].
      eexists w2, (_ :: out2). split; [reflexivity|].
      split; [eapply unchanged_trans; eauto|].
      split; [rewrite T2, T1, <- app_assoc; reflexivity|].
      split; [cbn [length]; now rewrite L2|].
      intros Hfree. cbn [List.map].
      assert (Hnext : next_fault w = false /\ forallb negb (faults w1) = true).
      { rewrite Hf. unfold next_fault. destruct (faults w) as [|b t]; [now split|].
        cbn [forallb] in Hfree. apply andb_true_iff in Hfree.
        destruct Hfree as [Hb Ht]. destruct b; [discriminate|]. now split. }
      destruct Hnext as [-> Hfree1]. f_equal. rewrite (F2 Hfree1).
      apply map_ext. intros c. now rewrite Hderef.
    + subst w1. exists w2, out2. split; [reflexivity|].
      split; [exact U2|]. split; [exact T2|]. split; [exact L2|exact F2].
Qed.

(** ** [get-peers] *)

Lemma dispatch_get_peers msg client w :
  type msg = "get-peers" -> dispatch msg client w = sendPeerList client w.
Proof. unfold dispatch. now intros ->. Qed.

Lemma sendPeerList_eq client w :
  sendPeerList client w =
  match sendToClient client (Peers (Map_keys (clients w))) w with
  | Returned _ w1 =>
      Returned tt
        (emit (Log info (SentPeerList (id (deref client w1))
                           (length (Map_keys (clients w))))) w1)
  | Thrown e w1 => Thrown e w1
  end.
Proof. reflexivity. Qed.

(** X1: a [get-peers] frame from a connection whose socket is open is
    answered, when the send does not throw, with one [peers] message to the
    requester that lists the ids of the registry in insertion order (the
    requester's own id and provisional ids included), followed by the log
    line; the registry is unchanged and nothing is broadcast.  When the
    requester's socket is not open nothing is sent, and the log line saying
    that the list was sent is written all the same. *)
Theorem get_peers_replies_with_snapshot w client msg now :
  accepted client w = true ->
  type msg = "get-peers" ->
  let w' := step w (message client (Json msg) now) in
  let s := socket (deref client w) in
  let sent_line :=
    Log info (SentPeerList (id (deref client w)) (length (clients w))) in
  (readyState s w = OPEN -> next_fault w = false ->
     effects_since w w' = [Send s (Peers (Map_keys (clients w))); sent_line]
     /\ clients w' = clients w)
  /\ (readyState s w <> OPEN ->
     effects_since w w' = [sent_line] /\ clients w' = clients w).
Proof.
  intros Hacc Hty w' s sent_line. subst w' s sent_line.
  rewrite step_message_json by exact Hacc.
  rewrite dispatch_get_peers by exact Hty.
  rewrite sendPeerList_eq, sendToClient_eq.
  rewrite (proj2 (deref_seen client now client w)).
  change (readyState ?x (seen client now w)) with (readyState x w).
  change (next_fault (seen client now w)) with (next_fault w).
  change (clients (seen client now w)) with (clients w).
  assert (Hid : forall e, id (deref client (emit e (consume_fault (seen client now w))))
                          = id (deref client w))
    by (intros e; apply (proj1 (deref_seen client now client w))).
  assert (Hlen : length (Map_keys (clients w)) = length (clients w))
    by apply length_map.
  split.
  - intros -> ->. cbn [world_of]. split; [|reflexivity].
    apply effects_since_app. rewrite Hid, Hlen. store_simpl.
    now rewrite <- app_assoc.
  - intros Hno. rewrite Hlen.
    destruct (readyState _ w); try contradiction;
      (cbn [world_of]; split; [|reflexivity]; apply effects_since_app;
       now rewrite (proj1 (deref_seen client now client w))).
Qed.

Lemma get_peers_replies_with_snapshot_witness :
  let w := run initial alice_and_bob in
  let msg := mkSignalMessage "get-peers" None None None None None None in
  accepted 1 w = true
  /\ effects_since w (step w (message 1 (Json msg) 30))
     = [Send 1 (Peers ["alice"; "bob"]); Log info (SentPeerList "bob" 2)].
Proof.
  intros w msg. split; [reflexivity|].
  destruct (get_peers_replies_with_snapshot w 1 msg 30 eq_refl eq_refl) as [H _].
  exact (proj1 (H eq_refl eq_refl)).
Defined.

(** ** Accepting a connection *)

Lemma Map_set_fresh k v (m : ClientMap) :
  Map_get k m = None -> Map_set k v m = m ++ [(k, v)].
Proof.
  induction m as [|[k' v'] m IH]; cbn [Map_get Map_set app]; [reflexivity|].
  destruct (String.eqb k' k); [discriminate|]. intros H. now rewrite IH.
Qed.

Lemma Map_delete_fresh k (m : ClientMap) :
  Map_get k m = None -> Map_delete k m = m.
Proof.
  induction m as [|[k' v'] m IH]; cbn [Map_get Map_delete List.filter fst];
    [reflexivity|].
  destruct (String.eqb k' k); [discriminate|]. cbn [negb]. intros H.
  f_equal. now apply IH.
Qed.

Lemma Map_delete_app k (m1 m2 : ClientMap) :
  Map_delete k (m1 ++ m2) = Map_delete k m1 ++ Map_delete k m2.
Proof. unfold Map_delete. apply List.filter_app. Qed.

(** X3: accepting a connection under a provisional id that is not in the
    registry appends one entry for it, after all the others, bound to a new
    client record that carries the id, the new socket and the current time;
    the records of the other connections are untouched.  When the send of
    the welcome does not throw, the handler logs the connection and sends
    [welcome{peerId}] to the new socket and nothing else: the other clients
    are not told.  When that send throws, the new connection is disconnected
    on the spot and the registry is back to what it was. *)
Theorem connection_registers_provisional_id w tempId now :
  Map_get tempId (clients w) = None ->
  let w' := step w (connection tempId now) in
  let client := length (objects w) in
  let s := length (sockets w) in
  objects w' = objects w ++ [mkSignalClient tempId s now]
  /\ readyState s w' = OPEN
  /\ (next_fault w = false ->
        clients w' = clients w ++ [(tempId, client)]
        /\ effects_since w w'
           = [Log info (NewConnection tempId); Send s (Welcome tempId)])
  /\ (next_fault w = true -> clients w' = clients w).
Proof.
  intros Hfresh w' client s. subst w' client s. cbn [step].
  rewrite onConnection_eq, sendToClient_eq.
  set (w0 := with_clock now (with_sockets (sockets w ++ [OPEN]) w)).
  assert (Hderef : deref (length (objects w0)) (connected (length (sockets w)) tempId w0)
                   = mkSignalClient tempId (length (sockets w)) now).
  { unfold deref, connected. store_simpl.
    now rewrite list_lookup_middle by reflexivity. }
  rewrite Hderef. cbn [socket id].
  assert (Hopen : forall w1, sockets w1 = sockets w ++ [OPEN] ->
                             readyState (length (sockets w)) w1 = OPEN).
  { intros w1 H1. unfold readyState. rewrite H1.
    now rewrite list_lookup_middle by reflexivity. }
  rewrite (Hopen (connected _ _ w0)) by reflexivity.
  change (next_fault (connected (length (sockets w)) tempId w0)) with (next_fault w).
  destruct (next_fault w).
  - match goal with |- context [handleDisconnect ?c ?w1] =>
      destruct (handleDisconnect_spec c w1) as (w' & out & E & Hc & Ho & Hs & _)
    end.
    rewrite E. cbn [world_of].
    split; [exact Ho|]. split; [apply Hopen; exact Hs|].
    split; [discriminate|]. intros _. rewrite Hc.
    change (deref _ (emit _ (consume_fault (connected (length (sockets w)) tempId w0))))
      with (deref (length (objects w0)) (connected (length (sockets w)) tempId w0)).
    rewrite Hderef. cbn [id]. unfold connected. store_simpl.
    rewrite Map_set_fresh by exact Hfresh.
    rewrite Map_delete_app, Map_delete_fresh by exact Hfresh.
    cbn [Map_delete List.filter fst]. rewrite String.eqb_refl. cbn [negb].
    apply app_nil_r.
  - cbn [world_of]. split; [reflexivity|]. split; [now apply Hopen|].
    split; [|discriminate]. intros _. split.
    + unfold connected. store_simpl. now apply Map_set_fresh.
    + apply effects_since_app. unfold connected. store_simpl.
      now rewrite <- app_assoc.
Qed.

Lemma connection_registers_provisional_id_witness :
  let w := run initial alice_and_bob in
  let w' := step w (connection "t-c" 30) in
  Map_get "t-c" (clients w) = None
  /\ clients w' = [("alice", 0); ("bob", 1); ("t-c", 2)]
  /\ effects_since w w' = [Log info (NewConnection "t-c"); Send 2 (Welcome "t-c")].
Proof.
  intros w w'. split; [reflexivity|].
  destruct (connection_registers_provisional_id w "t-c" 30 eq_refl)
    as (_ & _ & Hok & _).
  exact (Hok eq_refl).
Defined.

(** ** Frames and the sweep *)

Lemma sweep_lookup w now k c :
  registry_ok w -> In (k, c) (clients w) ->
  Map_get k (clients (step w (timer now)))
  = if stale now w c then None else Some c.
Proof.
  intros [Hnd _] Hin.
  destruct (step_timer_spec w now) as (out & Hc & _).
  rewrite sweep_keeps in Hc by exact Hnd. rewrite Hc.
  destruct (stale now w c) eqn:Hst.
  - apply Map_get_None. unfold Map_keys. rewrite in_map_iff.
    intros ([k' c'] & Hk & Hin'). cbn [fst] in Hk. subst k'.
    apply filter_In in Hin'. destruct Hin' as [Hin' Hkeep]. cbn [snd] in Hkeep.
    pose proof (In_Map_get _ _ _ Hnd Hin) as H1.
    pose proof (In_Map_get _ _ _ Hnd Hin') as H2.
    assert (c' = c) by congruence. subst c'.
    rewrite Hst in Hkeep. discriminate.
  - apply In_Map_get; [now apply NoDup_keys_filter|].
    apply filter_In. split; [exact Hin|]. cbn [snd]. now rewrite Hst.
Qed.

(** X4: every frame that decodes renews the sender's lease, whatever its
    type and whatever the handler did with it (a heartbeat, an unknown
    type, a rejected registration): if the sender is in the registry when
    the handler ends, a sweep that runs no more than 90000 ms after the
    frame keeps its entry. *)
Theorem decoded_frame_renews_lease w client msg t now k :
  registry_ok w ->
  accepted client w = true ->
  let w1 := step w (message client (Json msg) t) in
  In (k, client) (clients w1) ->
  (now - t <= 90 * 1000)%Z ->
  Map_get k (clients (step w1 (timer now))) = Some client.
Proof.
  intros Hok Hacc w1 Hin Hrecent.
  assert (Hok1 : registry_ok w1) by now apply step_keeps.
  rewrite (sweep_lookup w1 now k client Hok1 Hin).
  assert (Hseen : lastSeen (deref client w1) = t).
  { subst w1. rewrite step_message_json by exact Hacc.
    destruct (dispatch_evolves msg client (seen client t w)) as (w' & E & Ev & _);
      [now rewrite accepted_seen|].
    rewrite E. cbn [world_of]. rewrite (ev_lastSeen _ _ Ev).
    now apply lastSeen_seen. }
  destruct (stale now w1 client) eqn:Hst; [|reflexivity].
  apply stale_spec in Hst. rewrite Hseen in Hst. lia.
Qed.

Lemma decoded_frame_renews_lease_witness :
  let w := run initial alice_and_bob in
  let beat := mkSignalMessage "heartbeat" None None None None None None in
  let w1 := step w (message 0 (Json beat) 80000) in
  registry_ok w /\ In ("alice", 0) (clients w1)
  /\ clients (step w (timer 170000)) = []
  /\ Map_get "alice" (clients (step w1 (timer 170000))) = Some 0.
Proof.
  intros w beat w1.
  assert (Hok : registry_ok w) by concrete_registry_ok.
  assert (Hin : In ("alice", 0) (clients w1)) by (vm_compute; now left).
  assert (Hrecent : (170000 - 80000 <= 90 * 1000)%Z) by (vm_compute; discriminate).
  split; [exact Hok|]. split; [exact Hin|]. split; [reflexivity|].
  exact (decoded_frame_renews_lease w 0 beat 80000 170000 "alice" Hok eq_refl
           Hin Hrecent).
Defined.

(** X5: a frame that fails to decode does not renew the lease.  A client
    whose last decoded frame is more than 90000 ms old at the time of the
    sweep is evicted even if it sent a malformed frame in between, however
    late. *)
Theorem malformed_frame_does_not_renew_lease w client t now k :
  registry_ok w ->
  accepted client w = true ->
  In (k, client) (clients w) ->
  (now - lastSeen (deref client w) > 90 * 1000)%Z ->
  Map_get k (clients (step (step w (message client Malformed t)) (timer now)))
  = None.
Proof.
  intros Hok Hacc Hin Hidle.
  assert (Hstep : step w (message client Malformed t)
                  = emit (Log error (ParseError (id (deref client w)))) (with_clock t w))
    by (cbn [step]; now rewrite Hacc, handleMessage_malformed).
  rewrite Hstep.
  rewrite (sweep_lookup _ now k client); [|now apply (registry_ok_store w)|exact Hin].
  apply stale_spec in Hidle.
  change (stale now (emit _ (with_clock t w)) client) with (stale now w client).
  now rewrite Hidle.
Qed.

Lemma malformed_frame_does_not_renew_lease_witness :
  let w := run initial alice_and_bob in
  registry_ok w /\ In ("alice", 0) (clients w)
  /\ Map_get "alice"
       (clients (step (step w (message 0 Malformed 100000)) (timer 100011)))
     = None.
Proof.
  intros w.
  assert (Hok : registry_ok w) by concrete_registry_ok.
  assert (Hin : In ("alice", 0) (clients w)) by (vm_compute; now left).
  assert (Hidle : (100011 - lastSeen (deref 0%nat w) > 90 * 1000)%Z) by reflexivity.
  split; [exact Hok|]. split; [exact Hin|].
  exact (malformed_frame_does_not_renew_lease w 0 100000 100011 "alice" Hok eq_refl
           Hin Hidle).
Defined.

(** ** Disconnects *)

Lemma disconnect_without_entry client w :
  Map_get (id (deref client w)) (clients w) = None ->
  exists w' out,
    handleDisconnect client w = Returned tt w'
    /\ clients w' = clients w /\ objects w' = objects w
    /\ trace w' = trace w ++ Log info (ClientDisconnected (id (deref client w))) :: out
    /\ directory_broadcast w' out.
Proof.
  intros Hnone.
  destruct (handleDisconnect_spec client w)
    as (w' & out & E & Hc & Ho & _ & _ & Htr & D).
  exists w', out. rewrite Map_delete_fresh in Hc by exact Hnone. auto.
Qed.

(** ** No exception leaves a handler *)

(** X9: on frames that [JSON.parse] rejects and on frames that decode to a
    message of the declared [SignalMessage] interface ([type] a string;
    [peerId], [target] and [source] a string or absent), none of the
    callbacks the server installs lets an exception escape: accepting a
    connection, handling such a frame, a close, a socket error and a firing
    of the sweep all return normally from every state, whatever
    [socket.send] throws.  A frame that decodes to something else (a
    [peerId] that is a JSON object, say) is not a [RawData] and the
    statement does not cover it: there a template literal of a log line can
    throw, in [handleRegister] and again in the catch of [handleMessage]. *)
Theorem handlers_never_throw w :
  (forall s tempId, exists w', onConnection s tempId w = Returned tt w')
  /\ (forall client data, accepted client w = true ->
        exists w', handleMessage data client w = Returned tt w')
  /\ (forall client, exists w', handleDisconnect client w = Returned tt w')
  /\ (forall client, exists w', onSocketError client w = Returned tt w')
  /\ (exists w', heartbeatCheck w = Returned tt w').
Proof.
  split; [|split; [|split; [|split]]].
  - intros s tempId. rewrite onConnection_eq.
    match goal with |- context [sendToClient ?c ?m ?w0] =>
      destruct (sendToClient_evolves c m w0) as (w' & E & _)
    end.
    eauto.
  - intros client [|msg] Hacc.
    + rewrite handleMessage_malformed. eauto.
    + unfold handleMessage, try_catch, bind, JSON_parse, ret, Date_now, reads,
        set_client_lastSeen, writes.
      match goal with |- context [dispatch msg client ?w0] =>
        destruct (dispatch_evolves msg client w0) as (w' & E & _)
      end.
      * unfold accepted in *. store_simpl. now rewrite length_insert.
      * rewrite E. eauto.
  - intros client. destruct (handleDisconnect_evolves client w) as (w' & E & _). eauto.
  - intros client. unfold onSocketError, bind, client_id, reads, log, writes.
    match goal with |- context [handleDisconnect client ?w0] =>
      destruct (handleDisconnect_evolves client w0) as (w' & E & _)
    end.
    rewrite E. eauto.
  - destruct (heartbeatCheck_spec w) as (_ & w' & _ & _ & E & _). eauto.
Qed.

Lemma handlers_never_throw_witness :
  let w := step (run initial alice_and_bob) (fault [true; true; true]) in
  accepted 1 w = true
  /\ exists w', handleMessage (register_frame "carol") 1 w = Returned tt w'.
Proof.
  intros w. split; [reflexivity|].
  exact (proj1 (proj2 (handlers_never_throw w)) 1 (register_frame "carol") eq_refl).
Defined.

(** ** [stop] *)

Lemma terminate_one client w :
  exists w',
    try_catch (s <- client_socket client ;; socket_terminate s)
              (fun _ => ret tt) w = Returned tt w'
    /\ clients w' = clients w /\ objects w' = objects w
    /\ clock w' = clock w /\ faults w' = faults w
    /\ length (sockets w') = length (sockets w)
    /\ trace w' = trace w ++ [Terminate (socket (deref client w))].
Proof.
  unfold try_catch, bind, client_socket, reads, socket_terminate, writes.
  eexists. split; [reflexivity|].
  destruct (readyState _ _); store_simpl; rewrite ?length_insert;
    repeat split; reflexivity.
Qed.

Lemma stop_loop_spec cs : forall w,
  exists w',
    stop_loop cs w = Returned tt w'
    /\ clients w' = clients w /\ objects w' = objects w
    /\ clock w' = clock w /\ faults w' = faults w
    /\ length (sockets w') = length (sockets w)
    /\ trace w' = trace w ++ List.map (fun c => Terminate (socket (deref c w))) cs.
Proof.
  induction cs as [|client rest IH]; intros w; cbn [stop_loop List.map].
  - exists w. rewrite app_nil_r. now repeat split.
  - destruct (terminate_one client w) as (w0 & E0 & Hc0 & Ho0 & Ht0 & Hf0 & Hs0 & Htr0).
    destruct (IH w0) as (w' & E & Hc & Ho & Ht & Hf & Hs & Htr).
    unfold bind at 1. rewrite E0, E.
    exists w'. split; [reflexivity|].
    split; [congruence|]. split; [congruence|]. split; [congruence|].
    split; [congruence|]. split; [congruence|].
    rewrite Htr, Htr0, <- app_assoc. cbn [app]. do 2 f_equal.
    apply map_ext. intros c. unfold deref. now rewrite Ho0.
Qed.

(** X10: [stop] calls [terminate] on the socket of every registry entry, in
    registry order, and empties the registry; it sends nothing to anybody
    (no farewell, no directory broadcast) and leaves the client records as
    they are.  Around that it logs, clears the interval when there is one,
    so that the sweep fires no more, and closes the WebSocket server and the
    HTTP server, in this order. *)
Theorem stop_terminates_every_client p :
  let p' := stop p in
  clients (core p') = []
  /\ objects (core p') = objects (core p)
  /\ effects_since (core p) (core p')
     = List.map (fun c => Terminate (socket (deref c (core p))))
         (Map_values (clients (core p)))
  /\ wss_closed p' = true /\ server_closed p' = true
  /\ (heartbeatInterval p <> None ->
      interval_active p' = false
      /\ lifecycle p'
         = lifecycle p
           ++ [(length (trace (core p)), LogStopping);
               (length (trace (core p)), ClearInterval);
               (length (trace (core p')), WssClose);
               (length (trace (core p')), ServerClose)]).
Proof.
  intros p'. subst p'. unfold stop. cbv zeta.
  destruct (stop_loop_spec (Map_values (clients (core p))) (core p))
    as (w' & E & Hc & Ho & Ht & Hf & Hs & Htr).
  assert (Hw : world_of
                 ((cs <- reads (fun w => Map_values (clients w)) ;;
                   stop_loop cs ;; clients_clear) (core p))
               = with_clients [] w').
  { unfold bind at 1. unfold reads. unfold bind. now rewrite E. }
  destruct p as [w prt [h|] act wc sc lc]; cbn [heartbeatInterval note with_core
    core port interval_active wss_closed server_closed lifecycle] in *;
    rewrite Hw; cbn [clients objects trace with_clients].
  - split; [reflexivity|]. split; [exact Ho|].
    split; [now apply effects_since_app|]. split; [reflexivity|].
    split; [reflexivity|]. intros _. split; [reflexivity|].
    now rewrite <- !app_assoc.
  - split; [reflexivity|]. split; [exact Ho|].
    split; [now apply effects_since_app|]. split; [reflexivity|].
    split; [reflexivity|]. intros H. now contradiction H.
Qed.

Lemma stop_terminates_every_client_witness :
  let p := process_run (construct None) alice_and_bob in
  let p' := stop p in
  heartbeatInterval p <> None
  /\ clients (core p) = [("alice", 0); ("bob", 1)]
  /\ clients (core p') = []
  /\ effects_since (core p) (core p') = [Terminate 0; Terminate 1]
  /\ interval_active p' = false.
Proof.
  intros p p'.
  assert (Hh : heartbeatInterval p <> None) by discriminate.
  destruct (stop_terminates_every_client p) as (Hc & _ & Heff & _ & _ & Hint).
  split; [exact Hh|]. split; [reflexivity|]. split; [exact Hc|].
  split; [exact Heff|]. exact (proj1 (Hint Hh)).
Defined.

Lemma broadcastPeerList_empty w :
  clients w = [] ->
  broadcastPeerList w = Returned tt (emit (Log info (BroadcastedPeerList 0)) w).
Proof.
  intros H. unfold broadcastPeerList, broadcast, bind, reads. now rewrite H.
Qed.

Lemma handleDisconnect_empty client w :
  clients w = [] ->
  exists w',
    handleDisconnect client w = Returned tt w'
    /\ clients w' = []
    /\ trace w' = trace w ++ [Log info (ClientDisconnected (id (deref client w)));
                              Log info (BroadcastedPeerList 0)].
Proof.
  intros H. unfold handleDisconnect, bind, client_id, reads, log, clients_delete,
    writes.
  rewrite broadcastPeerList_empty by (store_simpl; now rewrite H).
  eexists. split; [reflexivity|]. store_simpl. rewrite H.
  split; [reflexivity|]. now rewrite <- app_assoc.
Qed.

Lemma quiet_step p e :
  wss_closed p = true -> clients (core p) = [] -> not_a_frame e = true ->
  wss_closed (process_step p e) = true
  /\ clients (core (process_step p e)) = []
  /\ exists out,
       trace (core (process_step p e)) = trace (core p) ++ out
       /\ forallb (fun x => negb (is_send x)) out = true.
Proof.
  intros Hwss Hc Hev.
  assert (Hsame : wss_closed p = true /\ clients (core p) = []
                  /\ exists out, trace (core p) = trace (core p) ++ out
                       /\ forallb (fun x => negb (is_send x)) out = true).
  { split; [exact Hwss|]. split; [exact Hc|]. exists []. now rewrite app_nil_r. }
  destruct e as [tempId now|client data now|client|client|now| |s st|outcomes];
    cbn [process_step step with_core core wss_closed]; try discriminate.
  - now rewrite Hwss.
  - destruct (accepted client (core p)); [|exact Hsame].
    destruct (handleDisconnect_empty client (core p) Hc) as (w' & E & Hc' & Htr).
    rewrite E. cbn [world_of]. split; [exact Hwss|]. split; [exact Hc'|]. eauto.
  - destruct (accepted client (core p)); [|exact Hsame].
    unfold onSocketError, bind, client_id, reads, log, writes.
    match goal with |- context [handleDisconnect client ?w0] =>
      destruct (handleDisconnect_empty client w0 Hc) as (w' & E & Hc' & Htr)
    end.
    rewrite E. cbn [world_of]. split; [exact Hwss|]. split; [exact Hc'|].
    eexists. split; [rewrite Htr; store_simpl; now rewrite <- app_assoc|reflexivity].
  - destruct (interval_active p); [|exact Hsame]. cbn [core wss_closed].
    unfold heartbeatCheck, bind, Date_now, reads, Map_entries. store_simpl.
    rewrite Hc. cbn [sweep_loop]. unfold ret.
    rewrite broadcastPeerList_empty by exact Hc. cbn [world_of].
    split; [exact Hwss|]. split; [exact Hc|]. eexists. split; reflexivity.
  - split; [exact Hwss|]. split; [exact Hc|]. eexists. split; reflexivity.
  - split; [exact Hwss|]. split; [exact Hc|]. exists []. now rewrite app_nil_r.
  - split; [exact Hwss|]. split; [exact Hc|]. exists []. now rewrite app_nil_r.
Qed.

Lemma quiet_run es : forall p,
  wss_closed p = true -> clients (core p) = [] ->
  forallb not_a_frame es = true ->
  clients (core (process_run p es)) = []
  /\ exists out,
       trace (core (process_run p es)) = trace (core p) ++ out
       /\ forallb (fun x => negb (is_send x)) out = true.
Proof.
  induction es as [|e es IH]; intros p Hwss Hc Hes; cbn [process_run fold_left].
  - split; [exact Hc|]. exists []. now rewrite app_nil_r.
  - cbn [forallb] in Hes. apply andb_true_iff in Hes. destruct Hes as [He Hes].
    destruct (quiet_step p e Hwss Hc He) as (Hwss1 & Hc1 & out1 & T1 & S1).
    destruct (IH (process_step p e) Hwss1 Hc1 Hes) as (Hc2 & out2 & T2 & S2).
    split; [exact Hc2|]. exists (out1 ++ out2).
    split; [unfold process_run in T2; rewrite T2, T1; now rewrite app_assoc|].
    rewrite forallb_app. now rewrite S1, S2.
Qed.

(** X11: once [stop] has run, the events that can still arrive do nothing
    visible to the peers.  The 'close' and 'error' events of the terminated
    sockets run [handleDisconnect] on an empty registry; connections are
    not accepted any more and, the interval being cleared, the sweep is
    silent: as long as no frame comes in, the registry stays empty and
    nothing is sent on any socket. *)
Theorem after_stop_nothing_is_sent p es :
  forallb not_a_frame es = true ->
  let q := process_run (stop p) es in
  clients (core q) = []
  /\ forallb (fun x => negb (is_send x)) (effects_since (core (stop p)) (core q))
     = true.
Proof.
  intros Hes q. subst q.
  destruct (stop_terminates_every_client p) as (Hc & _ & _ & Hwss & _).
  destruct (quiet_run es (stop p) Hwss Hc Hes) as (Hc' & out & T & S).
  split; [exact Hc'|]. now rewrite (effects_since_app _ _ _ T).
Qed.

Lemma after_stop_nothing_is_sent_witness :
  let p := process_run (construct (Some 9000%Z)) alice_and_bob in
  let es := [transport 0 CLOSED; close 0; timer 50000; connection "t-c" 60000;
             transport 1 CLOSED; close 1] in
  let q := process_run (stop p) es in
  forallb not_a_frame es = true
  /\ clients (core q) = []
  /\ effects_since (core (stop p)) (core q)
     = [Log info (ClientDisconnected "alice"); Log info (BroadcastedPeerList 0);
        Log info (ClientDisconnected "bob"); Log info (BroadcastedPeerList 0)].
Proof.
  intros p es q.
  destruct (after_stop_nothing_is_sent p es eq_refl) as [Hc _].
  split; [reflexivity|]. split; [exact Hc|]. reflexivity.
Defined.

(** ** One holder per id, one id per connection *)

(** X13: in every state the server can reach, an id of the registry has one
    holder and a connection sits under one id: two entries have the same id
    exactly when they are the entry of the same connection. *)
Theorem one_id_per_connection w k1 k2 c1 c2 :
  reachable w ->
  In (k1, c1) (clients w) -> In (k2, c2) (clients w) ->
  (k1 = k2 <-> c1 = c2).
Proof. apply registry_one_holder. Qed.

Lemma one_id_per_connection_witness :
  let w := run initial alice_and_bob in
  reachable w /\ ("alice" = "bob" <-> 0 = 1).
Proof.
  intros w.
  assert (Hr : reachable w).
  { exists alice_and_bob. split; [repeat constructor; discriminate|reflexivity]. }
  split; [exact Hr|].
  exact (one_id_per_connection w "alice" "bob" 0 1 Hr (or_introl eq_refl)
           (or_intror (or_introl eq_refl))).
Defined.

(** ** Every client keeps its own socket *)

Lemma own_sockets_evolves w w' :
  own_sockets w -> evolves w w' -> length (sockets w') = length (sockets w) ->
  own_sockets w'.
Proof.
  intros [Hlen Hown] Ev Hs. split.
  - rewrite Hs, (ev_length _ _ Ev). exact Hlen.
  - intros c Hc. rewrite (ev_socket _ _ Ev). apply Hown.
    now rewrite <- (ev_length _ _ Ev).
Qed.

Lemma own_sockets_store w w' :
  objects w' = objects w -> length (sockets w') = length (sockets w) ->
  own_sockets w -> own_sockets w'.
Proof.
  intros Ho Hs [Hlen Hown]. split; [now rewrite Hs, Ho|].
  intros c Hc. unfold deref. rewrite Ho. apply Hown. now rewrite <- Ho.
Qed.

Lemma step_own_sockets w e : own_sockets w -> own_sockets (step w e).
Proof.
  intros Hw. pose proof Hw as [Hlen Hown].
  destruct e as [tempId now|client data now|client|client|now| |s st|outcomes];
    cbn [step].
  - rewrite onConnection_eq.
    match goal with |- context [sendToClient ?c ?m ?w0] =>
      destruct (sendToClient_evolves c m w0) as (w' & E & Ev & Hs)
    end.
    rewrite E. cbn [world_of].
    eapply own_sockets_evolves; [|exact Ev|now rewrite Hs].
    unfold connected. split; store_simpl.
    + rewrite !length_app. cbn [length]. now rewrite Hlen.
    + intros c Hc. unfold deref. store_simpl. rewrite length_app in Hc.
      cbn [length] in Hc.
      destruct (decide (c = length (objects w))) as [->|Hne].
      * rewrite list_lookup_middle by reflexivity. exact Hlen.
      * rewrite lookup_app_l by lia. apply Hown. lia.
  - destruct (accepted client w) eqn:Hacc; [|exact Hw].
    destruct data as [|msg].
    + rewrite handleMessage_malformed. cbn [world_of].
      now apply (own_sockets_store w).
    + rewrite handleMessage_json by exact Hacc.
      destruct (dispatch_evolves msg client (seen client now w)) as (w' & E & Ev & Hs);
        [now rewrite accepted_seen|].
      rewrite E. cbn [world_of].
      eapply own_sockets_evolves; [|exact Ev|now rewrite Hs].
      split.
      * unfold seen. store_simpl. now rewrite length_insert.
      * intros c Hc. rewrite (proj2 (deref_seen client now c w)). apply Hown.
        unfold seen in Hc. store_simpl. now rewrite length_insert in Hc.
  - destruct (accepted client w); [|exact Hw].
    destruct (handleDisconnect_evolves client w) as (w' & E & Ev & Hs).
    rewrite E. cbn [world_of].
    eapply own_sockets_evolves; [exact Hw|exact Ev|now rewrite Hs].
  - destruct (accepted client w); [|exact Hw].
    unfold onSocketError, bind, client_id, reads, log, writes.
    match goal with |- context [handleDisconnect client ?w0] =>
      destruct (handleDisconnect_evolves client w0) as (w' & E & Ev & Hs)
    end.
    rewrite E. cbn [world_of].
    eapply own_sockets_evolves; [|exact Ev|now rewrite Hs].
    now apply (own_sockets_store w).
  - destruct (heartbeatCheck_spec (with_clock now w))
      as (w1 & w' & out & E1 & E & _ & Ho & _ & Hs & _).
    destruct (sweep_loop_spec now (clients w) (with_clock now w))
      as (w1' & E1' & _ & _ & _ & Hs1 & _).
    change (clock (with_clock now w)) with now in E1.
    change (clients (with_clock now w)) with (clients w) in E1.
    assert (w1' = w1) by congruence. subst w1'.
    rewrite E. cbn [world_of].
    apply (own_sockets_store w); [exact Ho|now rewrite Hs, Hs1|exact Hw].
  - now apply (own_sockets_store w).
  - apply (own_sockets_store w); [reflexivity| |exact Hw].
    store_simpl. apply length_insert.
  - now apply (own_sockets_store w).
Qed.

Lemma reachable_own_sockets w : reachable w -> own_sockets w.
Proof.
  intros (es & _ & <-). induction es as [|e es IH] using rev_ind.
  - split; [reflexivity|]. cbn. lia.
  - rewrite run_snoc. now apply step_own_sockets.
Qed.

(** X14: in every state the server can reach, each client record still
    carries the socket its connection was accepted with, and no two registry
    entries share a socket: what is sent to the socket of one id reaches no
    other id. *)
Theorem registry_entries_have_distinct_sockets w k1 k2 c1 c2 :
  reachable w ->
  In (k1, c1) (clients w) -> In (k2, c2) (clients w) ->
  socket (deref c1 w) = c1
  /\ (socket (deref c1 w) = socket (deref c2 w) -> k1 = k2).
Proof.
  intros Hreach H1 H2.
  destruct (reachable_own_sockets w Hreach) as [_ Hown].
  destruct (reachable_registry_ok w Hreach) as [[_ Hk] _].
  assert (Hlt : forall k c, In (k, c) (clients w) -> c < length (objects w)).
  { intros k c Hin. destruct (Hk k c Hin) as (cl & Hcl & _).
    apply lookup_lt_is_Some. eauto. }
  split; [apply Hown; eauto|].
  rewrite (Hown c1), (Hown c2) by eauto.
  intros Heq. now apply (registry_one_holder w k1 k2 c1 c2 Hreach H1 H2).
Qed.

Lemma registry_entries_have_distinct_sockets_witness :
  let w := run initial alice_and_bob in
  reachable w /\ socket (deref 1 w) = 1.
Proof.
  intros w.
  assert (Hr : reachable w).
  { exists alice_and_bob. split; [repeat constructor; discriminate|reflexivity]. }
  split; [exact Hr|].
  exact (proj1 (registry_entries_have_distinct_sockets w "bob" "alice" 1 0 Hr
                  (or_intror (or_introl eq_refl)) (or_introl eq_refl))).
Defined.

(** * Broadcasts, effect by effect *)

Lemma announced_next w : announced (faults w) 0 = next_fault w.
Proof. unfold announced, next_fault. now destruct (faults w). Qed.

Lemma announced_tail tape i : announced (tail tape) i = announced tape (S i).
Proof. unfold announced. now destruct tape. Qed.

Lemma drop_tail {A} (l : list A) n : drop n (tail l) = drop (S n) l.
Proof. destruct l; [cbn [tail]; now destruct n|reflexivity]. Qed.

Lemma outcome_unchanged msg w w' b c :
  unchanged w w' -> outcome msg w' b c = outcome msg w b c.
Proof. intros U. unfold outcome. now rewrite (unchanged_deref _ _ c U). Qed.

Lemma broadcast_loop_exact msg cs : forall w,
  exists w',
    broadcast_loop cs msg w = Returned tt w'
    /\ unchanged w w'
    /\ faults w' = drop (length (List.filter (is_open w) cs)) (faults w)
    /\ trace w' = trace w
         ++ imap (fun i c => outcome msg w (announced (faults w) i) c)
              (List.filter (is_open w) cs).
Proof.
  induction cs as [|client rest IH]; intros w; cbn [broadcast_loop List.filter].
  - exists w. cbn. rewrite app_nil_r.
    split; [reflexivity|]. split; [apply unchanged_refl|]. now split.
  - destruct (broadcast_one_exact client msg w) as (w1 & E1 & U1 & H1).
    destruct (IH w1) as (w2 & E2 & U2 & F2 & T2).
    unfold bind at 1. rewrite E1, E2. exists w2.
    split; [reflexivity|]. split; [eapply unchanged_trans; eauto|].
    rewrite (filter_pointwise _ _ rest (fun c => is_open_unchanged _ _ c U1)) in F2, T2.
    destruct (is_open w client).
    + destruct H1 as [Hf T1]. split.
      * rewrite F2, Hf. cbn [length]. apply drop_tail.
      * rewrite T2, T1, <- app_assoc. f_equal. rewrite imap_cons. cbn [app].
        f_equal.
        { unfold outcome. rewrite announced_next. now destruct (next_fault w). }
        apply imap_ext. intros i c _. cbn.
        now rewrite (outcome_unchanged _ _ _ _ _ U1), Hf, announced_tail.
    + subst w1. now split.
Qed.

Lemma broadcast_exact msg w :
  exists w',
    broadcast msg w = Returned tt w'
    /\ unchanged w w'
    /\ faults w' = after_broadcast w (faults w)
    /\ trace w' = trace w ++ broadcast_round msg w (faults w).
Proof.
  unfold broadcast, bind, reads.
  destruct (broadcast_loop_exact msg (Map_values (clients w)) w)
    as (w' & E & U & F & T).
  exists w'. now rewrite E.
Qed.

Lemma broadcastPeerList_exact w :
  exists w',
    broadcastPeerList w = Returned tt w'
    /\ unchanged w w'
    /\ faults w' = after_broadcast w (faults w)
    /\ trace w' = trace w ++ peers_broadcast w (faults w).
Proof.
  unfold broadcastPeerList, bind, reads, log, writes.
  destruct (broadcast_exact (Peers (Map_keys (clients w))) w) as (w' & E & U & F & T).
  rewrite E. eexists. split; [reflexivity|].
  split; [destruct U; now constructor|]. split; [exact F|].
  store_simpl. rewrite T. unfold peers_broadcast, Map_keys.
  now rewrite length_map, <- app_assoc.
Qed.

(** The round depends on the registry, the records and the sockets only. *)
Lemma peers_broadcast_store w w' tape :
  clients w' = clients w -> objects w' = objects w -> sockets w' = sockets w ->
  peers_broadcast w' tape = peers_broadcast w tape
  /\ after_broadcast w' tape = after_broadcast w tape.
Proof.
  intros Hc Ho Hs.
  unfold peers_broadcast, after_broadcast, broadcast_round, recipients, outcome,
    is_open, readyState, deref.
  now rewrite Hc, Ho, Hs.
Qed.

Lemma handleDisconnect_exact client w :
  exists w',
    handleDisconnect client w = Returned tt w'
    /\ clients w' = Map_delete (id (deref client w)) (clients w)
    /\ objects w' = objects w /\ sockets w' = sockets w /\ clock w' = clock w
    /\ faults w' = after_broadcast w' (faults w)
    /\ trace w' = trace w
         ++ Log info (ClientDisconnected (id (deref client w)))
            :: peers_broadcast w' (faults w).
Proof.
  unfold handleDisconnect, bind, client_id, reads, log, clients_delete, writes.
  simpl.
  match goal with |- context [broadcastPeerList ?w0] =>
    destruct (broadcastPeerList_exact w0) as (w' & E & U & F & T)
  end.
  rewrite E. exists w'. destruct U as [Hc Ho Hs Ht]. simpl in *.
  match type of T with context [peers_broadcast ?w0 _] =>
    destruct (peers_broadcast_store w0 w' (faults w) Hc Ho Hs) as [Hp Ha]
  end.
  split; [reflexivity|]. split; [exact Hc|]. split; [exact Ho|].
  split; [exact Hs|]. split; [exact Ht|].
  split; [now rewrite Ha|]. rewrite T, Hp. now rewrite <- app_assoc.
Qed.

Lemma sendToClient_exact client msg w :
  exists w',
    sendToClient client msg w = Returned tt w'
    /\ objects w' = objects w /\ sockets w' = sockets w /\ clock w' = clock w
    /\ (readyState (socket (deref client w)) w <> OPEN -> w' = w)
    /\ (readyState (socket (deref client w)) w = OPEN -> next_fault w = false ->
        w' = emit (Send (socket (deref client w)) msg) (consume_fault w))
    /\ (readyState (socket (deref client w)) w = OPEN -> next_fault w = true ->
        clients w' = Map_delete (id (deref client w)) (clients w)
        /\ faults w' = after_broadcast w' (tail (faults w))
        /\ trace w' = trace w
             ++ [Log error (SendError (id (deref client w)));
                 Log info (ClientDisconnected (id (deref client w)))]
             ++ peers_broadcast w' (tail (faults w))).
Proof.
  rewrite sendToClient_eq.
  destruct (readyState (socket (deref client w)) w) eqn:Hst;
    try (exists w; do 4 (split; [reflexivity|]);
         split; [intros _; reflexivity|]; split; intros; discriminate).
  destruct (next_fault w) eqn:Hf.
  - match goal with |- context [handleDisconnect _ ?w0] =>
      destruct (handleDisconnect_exact client w0)
        as (w' & E & Hc & Ho & Hs & Ht & Hfa & Htr)
    end.
    exists w'. split; [exact E|]. split; [exact Ho|]. split; [exact Hs|].
    split; [exact Ht|]. split; [intros H; now contradiction H|].
    split; [discriminate|]. intros _ _. split; [exact Hc|].
    split; [exact Hfa|]. rewrite Htr. store_simpl. now rewrite <- app_assoc.
  - eexists. do 4 (split; [reflexivity|]).
    split; [intros H; now contradiction H|]. split; [reflexivity|discriminate].
Qed.

(** ** Transport failures *)

(** C7: when the call of [socket.send] made by [sendToClient] throws,
    [sendToClient] still returns normally; the client's id has been deleted
    from the registry, which then holds no entry for that client; and what
    the call added to the trace is the error line, the disconnect line and
    one directory broadcast over the registry that is left: [peers] with the
    remaining ids to every remaining entry whose socket is open (or, for a
    send that throws in turn, the warning naming that entry), then the log
    line of [broadcastPeerList]. *)
Theorem send_failure_disconnects w client msg :
  registry_ok w ->
  readyState (socket (deref client w)) w = OPEN ->
  next_fault w = true ->
  exists w',
    sendToClient client msg w = Returned tt w'
    /\ clients w' = Map_delete (id (deref client w)) (clients w)
    /\ (forall k, ~ In (k, client) (clients w'))
    /\ effects_since w w'
       = [Log error (SendError (id (deref client w)));
          Log info (ClientDisconnected (id (deref client w)))]
         ++ peers_broadcast w' (tail (faults w)).
Proof.
  intros [_ Hk] Hopen Hfault.
  destruct (sendToClient_exact client msg w)
    as (w' & E & _ & _ & _ & _ & _ & Hfail).
  destruct (Hfail Hopen Hfault) as (Hc & _ & Htr).
  exists w'. split; [exact E|]. split; [exact Hc|].
  split; [|now apply effects_since_app].
  intros k Hin. rewrite Hc in Hin. apply In_Map_delete in Hin.
  destruct Hin as [Hin Hne]. destruct (Hk k client Hin) as (cl & Hcl & Hid).
  apply Hne. unfold deref. now rewrite Hcl.
Qed.

Lemma send_failure_disconnects_witness :
  let w := step (run initial alice_and_bob) (fault [true]) in
  exists w',
    sendToClient 1 (Peers ["alice"; "bob"]) w = Returned tt w'
    /\ clients w' = [("alice", 0)]
    /\ effects_since w w'
       = [Log error (SendError "bob"); Log info (ClientDisconnected "bob");
          Send 0 (Peers ["alice"]); Log info (BroadcastedPeerList 1)].
Proof.
  intros w.
  assert (Hok : registry_ok w) by concrete_registry_ok.
  destruct (send_failure_disconnects w 1 (Peers ["alice"; "bob"]) Hok eq_refl eq_refl)
    as (w' & E & Hc & _ & Heff).
  exists w'. split; [exact E|]. split; [exact Hc|].
  rewrite Heff. vm_compute in E. injection E as <-. reflexivity.
Defined.

(** ** The broadcast of the sweep *)




(** ** A disconnect that removes the entry of another connection *)

(** C9 fails on the first nine events of [late_close].  After the 'error'
    of connection 0 its id "alice" was deleted and connection 1 took it, so
    the registry is well formed and connection 0, whose record still
    carries "alice", has no entry.  Its 'close' event runs
    [handleDisconnect] again, which deletes by [client.id]: the entry that
    goes is the one of connection 1, which is still open. *)
Theorem second_disconnect_removes_entry_of_other_connection :
  let w := run initial (firstn 8 late_close) in
  let w' := step w (close 0) in
  reachable w
  /\ clients w = [("t-c", 2); ("alice", 1)]
  /\ id (deref 0 w) = "alice"
  /\ readyState (socket (deref 1 w)) w = OPEN
  /\ w' = run initial (firstn 9 late_close)
  /\ clients w' = [("t-c", 2)].
Proof.
  split.
  - exists (firstn 8 late_close).
    split; [repeat constructor; discriminate|reflexivity].
  - vm_compute. repeat split; reflexivity.
Qed.

(** ** A registration that is turned down *)

(** C4, as amended: when a register frame asks for a [peerId] that is in
    the registry and is not the id the requester's record carries (as is
    always the case when the requester sits in the registry itself and the
    id maps to another connection), the holder is a different connection,
    a warning is logged and the error reply is sent through
    [sendToClient].  If the requester's socket is open and the send does
    not throw, the handler adds exactly the warning and
    [error{message:"Peer ID already in use"}] to the requester, and the
    registry and every client's id are unchanged, with no broadcast; if the
    socket is not open, only the warning is added and nothing changes
    either; if the send throws, the requester is disconnected: the key of
    its id is deleted and, after the error and disconnect lines, the
    directory of the registry that is left is broadcast. *)
Theorem conflicting_registration_rejected w client msg now p holder :
  reachable w ->
  accepted client w = true ->
  type msg = "register" -> peerId msg = Some p ->
  Map_get p (clients w) = Some holder ->
  id (deref client w) <> p ->
  let w' := step w (message client (Json msg) now) in
  let s := socket (deref client w) in
  let cid := id (deref client w) in
  holder <> client
  /\ (readyState s w = OPEN -> next_fault w = false ->
     effects_since w w'
     = [Log warn (IdInUse cid p); Send s (ErrorReply "Peer ID already in use")]
     /\ clients w' = clients w
     /\ forall r, id (deref r w') = id (deref r w))
  /\ (readyState s w <> OPEN ->
     effects_since w w' = [Log warn (IdInUse cid p)]
     /\ clients w' = clients w
     /\ forall r, id (deref r w') = id (deref r w))
  /\ (readyState s w = OPEN -> next_fault w = true ->
     clients w' = Map_delete cid (clients w)
     /\ effects_since w w'
        = [Log warn (IdInUse cid p); Log error (SendError cid);
           Log info (ClientDisconnected cid)]
          ++ peers_broadcast w' (tail (faults w))).
Proof.
  intros Hreach Hacc Hty Hpeer Hholder Hdiff w' s cid. subst w' s cid.
  destruct (reachable_registry_ok _ Hreach) as [[Hnd Hk] Hnonempty].
  assert (Hp : p <> "").
  { intros ->. apply Hnonempty. eapply In_Map_keys, Map_get_In. exact Hholder. }
  assert (Hpid : id (deref holder w) = p).
  { destruct (Hk p holder (Map_get_In _ _ _ Hholder)) as (cl & Hcl & Hid).
    unfold deref. now rewrite Hcl. }
  split; [intros ->; contradiction|].
  rewrite step_message_json by exact Hacc.
  rewrite dispatch_register, handleRegister_eq by exact Hty.
  rewrite Hpeer. cbn [falsy from_option Datatypes.id].
  destruct (String.eqb_spec p "") as [|_]; [contradiction|]. cbv zeta.
  change (clients (seen client now w)) with (clients w).
  unfold Map_has. rewrite Hholder. cbn [holder_differs andb].
  rewrite !(proj1 (deref_seen client now _ w)), Hpid.
  destruct (String.eqb_spec p (id (deref client w))) as [Heq|_]; [congruence|].
  cbn [negb].
  set (w1 := emit (Log warn (IdInUse (id (deref client w)) p)) (seen client now w)).
  assert (Hsock : socket (deref client w1) = socket (deref client w))
    by apply (proj2 (deref_seen client now client w)).
  assert (Hid : forall r, id (deref r w1) = id (deref r w))
    by (intros r; apply (proj1 (deref_seen client now r w))).
  destruct (sendToClient_exact client (ErrorReply "Peer ID already in use") w1)
    as (w' & E & Ho & _ & _ & Hskip & Hdone & Hfail).
  rewrite E. cbn [world_of].
  rewrite Hsock in Hskip, Hdone, Hfail. rewrite !Hid in Hfail.
  change (readyState ?x w1) with (readyState x w) in Hskip, Hdone, Hfail.
  change (next_fault w1) with (next_fault w) in Hdone, Hfail.
  change (faults w1) with (faults w) in Hfail.
  split; [|split].
  - intros Hopen Hf. rewrite (Hdone Hopen Hf).
    split; [|split; [reflexivity|exact Hid]].
    apply effects_since_app. unfold w1. store_simpl. now rewrite <- app_assoc.
  - intros Hno. rewrite (Hskip Hno).
    split; [now apply effects_since_app|]. split; [reflexivity|exact Hid].
  - intros Hopen Hf. destruct (Hfail Hopen Hf) as (Hc & _ & Htr).
    split; [exact Hc|]. apply effects_since_app. rewrite Htr. unfold w1.
    store_simpl. now rewrite <- !app_assoc.
Qed.

Lemma conflicting_registration_rejected_witness :
  let w := run initial alice_and_bob in
  let w' := step w (message 1 (register_frame "alice") 30) in
  reachable w /\ accepted 1 w = true
  /\ Map_get "alice" (clients w) = Some 0
  /\ id (deref 1 w) <> "alice"
  /\ effects_since w w'
     = [Log warn (IdInUse "bob" "alice");
        Send 1 (ErrorReply "Peer ID already in use")]
  /\ clients w' = clients w.
Proof.
  intros w w'.
  assert (Hr : reachable w).
  { exists alice_and_bob. split; [repeat constructor; discriminate|reflexivity]. }
  assert (Hne : id (deref 1 w) <> "alice") by discriminate.
  destruct (conflicting_registration_rejected w 1
              (mkSignalMessage "register" None None (Some "alice") None None None)
              30 "alice" 0 Hr eq_refl eq_refl eq_refl eq_refl Hne)
    as (_ & Hsent & _).
  destruct (Hsent eq_refl eq_refl) as (Heff & Hc & _).
  split; [exact Hr|]. split; [reflexivity|]. split; [reflexivity|].
  split; [exact Hne|]. split; [exact Heff|exact Hc].
Defined.

(** ** A registration that passes the check *)

Lemma Map_delete_rekeyed p cid client (m : ClientMap) :
  Map_get p (Map_delete cid m) = None ->
  Map_delete p (Map_delete cid m ++ [(p, client)]) = Map_delete cid m.
Proof.
  intros Hfresh. rewrite Map_delete_app, Map_delete_fresh by exact Hfresh.
  cbn [Map_delete List.filter fst]. rewrite String.eqb_refl. apply app_nil_r.
Qed.

(** What [handleRegister] does once the conflict test has let the request
    through, for each way the confirmation can end. *)
Lemma register_passes w client msg now p :
  registry_ok w ->
  accepted client w = true ->
  type msg = "register" -> peerId msg = Some p -> p <> "" ->
  Map_get p (clients w) = None \/ id (deref client w) = p ->
  let w' := step w (message client (Json msg) now) in
  let s := socket (deref client w) in
  let cid := id (deref client w) in
  Map_get p (Map_delete cid (clients w)) = None
  /\ deref client w' = mkSignalClient p s now
  /\ (readyState s w <> OPEN ->
      clients w' = Map_delete cid (clients w) ++ [(p, client)]
      /\ effects_since w w'
         = Log info (ClientRegistered p) :: peers_broadcast w' (faults w))
  /\ (readyState s w = OPEN -> next_fault w = false ->
      clients w' = Map_delete cid (clients w) ++ [(p, client)]
      /\ effects_since w w'
         = [Log info (ClientRegistered p); Send s (Registered p)]
           ++ peers_broadcast w' (tail (faults w)))
  /\ (readyState s w = OPEN -> next_fault w = true ->
      clients w' = Map_delete cid (clients w)
      /\ effects_since w w'
         = [Log info (ClientRegistered p); Log error (SendError p);
            Log info (ClientDisconnected p)]
           ++ peers_broadcast w' (tail (faults w))
           ++ peers_broadcast w' (after_broadcast w' (tail (faults w)))).
Proof.
  intros [Hnd Hk] Hacc Hty Hpeer Hp Hfree w' s cid. subst w' s cid.
  assert (Hfresh : Map_get p (Map_delete (id (deref client w)) (clients w)) = None).
  { destruct (String.eqb_spec p (id (deref client w))) as [->|Hne];
      [apply Map_get_delete_eq|].
    rewrite Map_get_delete_ne by exact Hne.
    destruct Hfree as [Hnone|Hown]; [exact Hnone|congruence]. }
  split; [exact Hfresh|].
  rewrite step_message_json by exact Hacc.
  rewrite dispatch_register, handleRegister_eq by exact Hty.
  rewrite Hpeer. cbn [falsy from_option Datatypes.id].
  destruct (String.eqb_spec p "") as [|_]; [contradiction|]. cbv zeta.
  set (w0 := seen client now w).
  assert (Hid0 : forall r, id (deref r w0) = id (deref r w))
    by (intros r; apply (proj1 (deref_seen client now r w))).
  assert (Hsock0 : socket (deref client w0) = socket (deref client w))
    by apply (proj2 (deref_seen client now client w)).
  assert (Hlt : client < length (objects w0))
    by (apply accepted_lt; unfold w0; now rewrite accepted_seen).
  assert (Hnoconflict :
            Map_has p (clients w0)
            && holder_differs (Map_get p (clients w0)) (id (deref client w0)) w0
            = false).
  { change (clients w0) with (clients w). unfold Map_has.
    destruct (Map_get p (clients w)) as [h|] eqn:Hget; [|reflexivity].
    destruct Hfree as [[=]|Hown]. cbn [andb holder_differs].
    rewrite !Hid0, Hown.
    destruct (Hk p h (Map_get_In _ _ _ Hget)) as (cl & Hcl & Hidh).
    unfold deref. rewrite Hcl. cbn [default from_option Datatypes.id].
    now rewrite Hidh, String.eqb_refl. }
  rewrite Hnoconflict. unfold bind.
  set (w2 := emit (Log info (ClientRegistered p)) (reassigned client p w0)).
  assert (Hderef2 : deref client w2
                    = mkSignalClient p (socket (deref client w)) now).
  { unfold w2, reassigned, deref at 1. store_simpl.
    rewrite list_lookup_insert_eq by exact Hlt. cbn [default from_option Datatypes.id].
    rewrite Hsock0. f_equal. unfold w0. now apply lastSeen_seen. }
  assert (Hc2 : clients w2
                = Map_delete (id (deref client w)) (clients w) ++ [(p, client)]).
  { unfold w2, reassigned. store_simpl. rewrite Hid0.
    now apply Map_set_fresh. }
  assert (Htr2 : trace w2 = trace w ++ [Log info (ClientRegistered p)])
    by reflexivity.
  destruct (sendToClient_exact client (Registered p) w2)
    as (w3 & E3 & Ho3 & Hs3 & _ & Hskip & Hdone & Hfail).
  rewrite E3. rewrite Hderef2 in Hskip, Hdone, Hfail. cbn [socket id] in *.
  change (readyState ?x w2) with (readyState x w) in Hskip, Hdone, Hfail.
  change (next_fault w2) with (next_fault w) in Hdone, Hfail.
  change (faults w2) with (faults w) in Hfail.
  destruct (broadcastPeerList_exact w3) as (w' & E & U & _ & T).
  rewrite E. cbn [world_of]. pose proof U as [Uc Uo Us _].
  assert (Hstore : forall tape, peers_broadcast w3 tape = peers_broadcast w' tape
                                /\ after_broadcast w3 tape = after_broadcast w' tape).
  { intros tape.
    destruct (peers_broadcast_store w3 w' tape Uc Uo Us) as [H1 H2]. now split. }
  split; [|split; [|split]].
  - rewrite <- Hderef2. unfold deref. now rewrite Uo, Ho3.
  - intros Hno. pose proof (Hskip Hno) as ->.
    split; [now rewrite Uc|]. apply effects_since_app.
    rewrite T, (proj1 (Hstore _)), Htr2. change (faults w2) with (faults w).
    now rewrite <- app_assoc.
  - intros Hopen Hf. pose proof (Hdone Hopen Hf) as ->.
    split; [rewrite Uc; exact Hc2|]. apply effects_since_app.
    rewrite T, (proj1 (Hstore _)). store_simpl. rewrite Htr2.
    change (faults w2) with (faults w). now rewrite <- !app_assoc.
  - intros Hopen Hf. destruct (Hfail Hopen Hf) as (Hc3 & Hf3 & Htr3).
    split; [rewrite Uc, Hc3, Hc2; now apply Map_delete_rekeyed|].
    apply effects_since_app.
    rewrite T, Htr3, Hf3, !(proj1 (Hstore _)), (proj2 (Hstore _)), Htr2.
    now rewrite <- !app_assoc.
Qed.




(** ** Which messages a directory broadcast sends *)

Lemma peers_broadcast_sends w tape s m :
  In (Send s m) (peers_broadcast w tape) -> m = Peers (Map_keys (clients w)).
Proof.
  unfold peers_broadcast, broadcast_round. intros Hin.
  apply in_app_or in Hin. destruct Hin as [Hin|[[=]|[]]].
  apply list_elem_of_In, elem_of_lookup_imap in Hin.
  destruct Hin as (i & c & Heq & _). unfold outcome in Heq.
  destruct (announced tape i); now inversion Heq.
Qed.

(** X2: [broadcast] never throws and never touches the registry, the client
    records or the sockets.  It makes one attempt per entry whose socket is
    open, in the order of the registry, and the i-th attempt is the one that
    meets the i-th pending outcome of [socket.send]: when that send returns,
    the i-th effect is the message handed to that entry's socket; when it
    throws, the i-th effect is the warning naming that entry, and nothing
    else.  So a send that throws costs its own recipient only: every other
    open entry whose own send returns gets the message. *)
Theorem broadcast_failures_are_isolated msg w :
  exists w',
    broadcast msg w = Returned tt w'
    /\ unchanged w w'
    /\ faults w' = drop (length (recipients w)) (faults w)
    /\ length (effects_since w w') = length (recipients w)
    /\ (forall i c, recipients w !! i = Some c ->
          effects_since w w' !! i
          = Some (if announced (faults w) i
                  then Log warn (BroadcastError (id (deref c w)))
                  else Send (socket (deref c w)) msg))
    /\ (forall i c, recipients w !! i = Some c ->
          announced (faults w) i = false ->
          In (Send (socket (deref c w)) msg) (effects_since w w')).
Proof.
  destruct (broadcast_exact msg w) as (w' & E & U & F & T).
  exists w'. split; [exact E|]. split; [exact U|]. split; [exact F|].
  rewrite (effects_since_app _ _ _ T). unfold broadcast_round.
  assert (Hat : forall i c, recipients w !! i = Some c ->
                  imap (fun i c => outcome msg w (announced (faults w) i) c)
                    (recipients w) !! i
                  = Some (outcome msg w (announced (faults w) i) c)).
  { intros i c Hi. now rewrite list_lookup_imap, Hi. }
  split; [apply length_imap|]. split; [exact Hat|].
  intros i c Hi Hret. pose proof (Hat i c Hi) as Hin.
  apply list_elem_of_lookup_2, list_elem_of_In in Hin.
  unfold outcome in Hin at 2. now rewrite Hret in Hin.
Qed.

Lemma broadcast_failures_are_isolated_witness :
  let w := step (run initial alice_and_bob) (fault [true; false]) in
  exists w',
    broadcast (Peers ["alice"; "bob"]) w = Returned tt w'
    /\ effects_since w w' !! 0 = Some (Log warn (BroadcastError "alice"))
    /\ effects_since w w' !! 1 = Some (Send 1 (Peers ["alice"; "bob"]))
    /\ length (effects_since w w') = 2.
Proof.
  intros w.
  destruct (broadcast_failures_are_isolated (Peers ["alice"; "bob"]) w)
    as (w' & E & _ & _ & L & Hat & _).
  exists w'. split; [exact E|].
  split; [exact (Hat 0 0 eq_refl)|]. split; [exact (Hat 1 1 eq_refl)|exact L].
Defined.

(** ** Registrations, effect by effect *)

(** X6: a register frame for a non-empty id that is free, or that is the
    requester's own, from a connection whose socket is open and whose send
    of the confirmation does not throw, goes through as follows: the key of
    the requester's current id is deleted and the new id is placed last in
    the registry, bound to the requester, whose record now carries the new
    id, the same socket and the time of the frame.  The effects are, in
    this order and with nothing else: the log line, [registered{peerId}] to
    the requester, then one directory round over the new registry, which
    hands [peers] with the new list of ids to every entry whose socket is
    open (a warning instead where that send throws), and its log line. *)
Theorem registration_is_announced w client msg now p :
  registry_ok w ->
  accepted client w = true ->
  type msg = "register" -> peerId msg = Some p -> p <> "" ->
  Map_get p (clients w) = None \/ id (deref client w) = p ->
  readyState (socket (deref client w)) w = OPEN ->
  next_fault w = false ->
  let w' := step w (message client (Json msg) now) in
  clients w' = Map_delete (id (deref client w)) (clients w) ++ [(p, client)]
  /\ deref client w' = mkSignalClient p (socket (deref client w)) now
  /\ In p (Map_keys (clients w'))
  /\ effects_since w w'
     = [Log info (ClientRegistered p);
        Send (socket (deref client w)) (Registered p)]
       ++ peers_broadcast w' (tail (faults w)).
Proof.
  intros Hok Hacc Hty Hpeer Hp Hfree Hopen Hfault w'.
  destruct (register_passes w client msg now p Hok Hacc Hty Hpeer Hp Hfree)
    as (_ & Hd & _ & Hdone & _).
  destruct (Hdone Hopen Hfault) as [Hc Heff].
  split; [exact Hc|]. split; [exact Hd|]. split; [|exact Heff].
  subst w'. rewrite Hc. unfold Map_keys. rewrite map_app.
  apply in_or_app. right. now left.
Qed.

Lemma registration_is_announced_witness :
  let w := run initial alice_and_bob in
  let w' := step w (message 1 (register_frame "carol") 30) in
  registry_ok w
  /\ clients w' = [("alice", 0); ("carol", 1)]
  /\ deref 1 w' = mkSignalClient "carol" 1 30
  /\ effects_since w w'
     = [Log info (ClientRegistered "carol"); Send 1 (Registered "carol");
        Send 0 (Peers ["alice"; "carol"]); Send 1 (Peers ["alice"; "carol"]);
        Log info (BroadcastedPeerList 2)].
Proof.
  intros w w'.
  assert (Hok : registry_ok w) by concrete_registry_ok.
  assert (Hp : "carol" <> "") by discriminate.
  destruct (registration_is_announced w 1
              (mkSignalMessage "register" None None (Some "carol") None None None)
              30 "carol" Hok eq_refl eq_refl eq_refl Hp (or_introl eq_refl)
              eq_refl eq_refl) as (Hc & Hd & _ & Heff).
  split; [exact Hok|]. split; [exact Hc|]. split; [exact Hd|exact Heff].
Defined.

(** X7: a client that is in the registry under [p] and sends a register
    frame for [p] again is never refused: the handler returns normally and
    no [error] message is sent to anybody.  The entry is deleted and set
    again.  When the client's socket is not open, or is open and the send
    of [registered] returns, the client keeps the id, every id maps to the
    same connection as before and [p] has moved to the end of the registry,
    which is the order of the directory sent to the peers.  When the send
    of [registered] throws, the client is disconnected: [p] leaves the
    registry and the others stay. *)
Theorem registering_own_id_again w client msg now p :
  registry_ok w ->
  accepted client w = true ->
  type msg = "register" -> peerId msg = Some p -> p <> "" ->
  Map_get p (clients w) = Some client ->
  let w' := step w (message client (Json msg) now) in
  let s := socket (deref client w) in
  (exists w1, handleMessage (Json msg) client (with_clock now w) = Returned tt w1
              /\ w' = w1)
  /\ (forall s' text, ~ In (Send s' (ErrorReply text)) (effects_since w w'))
  /\ deref client w' = mkSignalClient p s now
  /\ (readyState s w <> OPEN ->
      effects_since w w'
      = Log info (ClientRegistered p) :: peers_broadcast w' (faults w))
  /\ (readyState s w = OPEN -> next_fault w = false ->
      effects_since w w'
      = [Log info (ClientRegistered p); Send s (Registered p)]
        ++ peers_broadcast w' (tail (faults w)))
  /\ (readyState s w <> OPEN \/ next_fault w = false ->
      clients w' = Map_delete p (clients w) ++ [(p, client)]
      /\ forall k, Map_get k (clients w') = Map_get k (clients w))
  /\ (readyState s w = OPEN -> next_fault w = true ->
      clients w' = Map_delete p (clients w)
      /\ Map_get p (clients w') = None
      /\ forall k, k <> p -> Map_get k (clients w') = Map_get k (clients w)).
Proof.
  intros Hok Hacc Hty Hpeer Hp Hheld w' s.
  assert (Hown : id (deref client w) = p).
  { destruct Hok as [_ Hk].
    destruct (Hk p client (Map_get_In _ _ _ Hheld)) as (cl & Hcl & Hid).
    unfold deref. now rewrite Hcl. }
  destruct (register_passes w client msg now p Hok Hacc Hty Hpeer Hp
              (or_intror Hown)) as (_ & Hd & Hskip & Hdone & Hfail).
  fold w' in Hd, Hskip, Hdone, Hfail. fold s in Hd, Hskip, Hdone, Hfail.
  rewrite Hown in Hskip, Hdone, Hfail.
  assert (Hkept : clients w' = Map_delete p (clients w) ++ [(p, client)] ->
                  forall k, Map_get k (clients w') = Map_get k (clients w)).
  { intros Hc k. rewrite Hc.
    rewrite <- (Map_set_fresh p client) by apply Map_get_delete_eq.
    destruct (String.eqb_spec k p) as [->|Hne].
    - now rewrite Map_get_set_eq.
    - now rewrite Map_get_set_ne, Map_get_delete_ne. }
  assert (Hstate : readyState s w = OPEN \/ readyState s w <> OPEN)
    by (destruct (readyState s w); (now left) || (right; discriminate)).
  split.
  { rewrite handleMessage_json by exact Hacc.
    destruct (dispatch_evolves msg client (seen client now w)) as (w1 & E & _);
      [now rewrite accepted_seen|].
    exists w1. split; [exact E|]. subst w'.
    now rewrite step_message_json, E by exact Hacc. }
  split.
  { intros s' text Hin.
    assert (Hpeers : forall tape,
              In (Send s' (ErrorReply text)) (peers_broadcast w' tape) -> False)
      by (intros tape H; now apply peers_broadcast_sends in H).
    destruct Hstate as [Hopen|Hno].
    - destruct (next_fault w) eqn:Hf.
      + rewrite (proj2 (Hfail Hopen eq_refl)) in Hin. cbn [app] in Hin.
        destruct Hin as [[=]|[[=]|[[=]|Hin]]].
        apply in_app_or in Hin. destruct Hin as [Hin|Hin]; exact (Hpeers _ Hin).
      + rewrite (proj2 (Hdone Hopen eq_refl)) in Hin. cbn [app] in Hin.
        destruct Hin as [[=]|[[=]|Hin]]. exact (Hpeers _ Hin).
    - rewrite (proj2 (Hskip Hno)) in Hin.
      destruct Hin as [[=]|Hin]. exact (Hpeers _ Hin). }
  split; [exact Hd|].
  split; [intros Hno; exact (proj2 (Hskip Hno))|].
  split; [intros Hopen Hf; exact (proj2 (Hdone Hopen Hf))|].
  split.
  - intros Hcase.
    assert (Hc : clients w' = Map_delete p (clients w) ++ [(p, client)]).
    { destruct Hstate as [Hopen|Hno]; [|exact (proj1 (Hskip Hno))].
      destruct Hcase as [Hno|Hf]; [contradiction|exact (proj1 (Hdone Hopen Hf))]. }
    split; [exact Hc|now apply Hkept].
  - intros Hopen Hf. pose proof (proj1 (Hfail Hopen Hf)) as Hc.
    split; [exact Hc|]. rewrite Hc. split; [apply Map_get_delete_eq|].
    intros k Hne. now apply Map_get_delete_ne.
Qed.

Lemma registering_own_id_again_witness :
  let w := run initial alice_and_bob in
  let w' := step w (message 0 (register_frame "alice") 30) in
  registry_ok w
  /\ clients w = [("alice", 0); ("bob", 1)]
  /\ clients w' = [("bob", 1); ("alice", 0)]
  /\ (forall k, Map_get k (clients w') = Map_get k (clients w))
  /\ effects_since w w'
     = [Log info (ClientRegistered "alice"); Send 0 (Registered "alice");
        Send 1 (Peers ["bob"; "alice"]); Send 0 (Peers ["bob"; "alice"]);
        Log info (BroadcastedPeerList 2)].
Proof.
  intros w w'.
  assert (Hok : registry_ok w) by concrete_registry_ok.
  assert (Hp : "alice" <> "") by discriminate.
  destruct (registering_own_id_again w 0
              (mkSignalMessage "register" None None (Some "alice") None None None)
              30 "alice" Hok eq_refl eq_refl eq_refl Hp eq_refl)
    as (_ & _ & _ & _ & Heff & Hkept & _).
  destruct (Hkept (or_intror eq_refl)) as [Hc Hsame].
  split; [exact Hok|]. split; [reflexivity|]. split; [exact Hc|].
  split; [exact Hsame|exact (Heff eq_refl eq_refl)].
Defined.

(** ** Disconnects, effect by effect *)

(** X8: a socket that raises 'error' and then 'close' runs
    [handleDisconnect] twice.  With no event in between, the second run
    finds the id already deleted and leaves the registry as the first run
    left it; what it adds to the trace is the disconnect line again and a
    second directory round over that registry: [peers] with the remaining
    ids to every remaining entry whose socket is open (a warning instead
    where that send throws), then the log line of [broadcastPeerList]. *)
Theorem close_after_error_keeps_registry w client :
  let w1 := step w (socket_error client) in
  let w2 := step w1 (close client) in
  clients w2 = clients w1
  /\ (accepted client w = true ->
      clients w1 = Map_delete (id (deref client w)) (clients w)
      /\ effects_since w1 w2
         = Log info (ClientDisconnected (id (deref client w)))
           :: peers_broadcast w2 (faults w1)).
Proof.
  intros w1 w2. subst w1 w2. cbn [step].
  destruct (accepted client w) eqn:Hacc.
  2:{ rewrite Hacc. split; [reflexivity|discriminate]. }
  unfold onSocketError, bind, client_id, reads, log, writes.
  match goal with |- context [handleDisconnect client ?w0] =>
    destruct (handleDisconnect_exact client w0)
      as (w1 & E1 & Hc1 & Ho1 & _)
  end.
  rewrite E1. cbn [world_of].
  change (id (deref client (emit _ w))) with (id (deref client w)) in Hc1.
  change (clients (emit _ w)) with (clients w) in Hc1.
  change (objects (emit _ w)) with (objects w) in Ho1.
  assert (Hacc1 : accepted client w1 = true)
    by (unfold accepted in *; now rewrite Ho1).
  assert (Hid1 : id (deref client w1) = id (deref client w))
    by (unfold deref; now rewrite Ho1).
  rewrite Hacc1.
  destruct (handleDisconnect_exact client w1) as (w2 & E2 & Hc2 & _ & _ & _ & _ & Htr).
  rewrite E2. cbn [world_of].
  rewrite Hid1 in Hc2, Htr.
  rewrite Map_delete_fresh in Hc2 by (rewrite Hc1; apply Map_get_delete_eq).
  split; [exact Hc2|]. intros _. split; [exact Hc1|].
  now apply effects_since_app.
Qed.

Lemma close_after_error_keeps_registry_witness :
  let w := run initial alice_and_bob in
  let w1 := step w (socket_error 0) in
  let w2 := step w1 (close 0) in
  accepted 0 w = true
  /\ clients w1 = [("bob", 1)] /\ clients w2 = [("bob", 1)]
  /\ effects_since w1 w2
     = [Log info (ClientDisconnected "alice"); Send 1 (Peers ["bob"]);
        Log info (BroadcastedPeerList 1)].
Proof.
  intros w w1 w2.
  destruct (close_after_error_keeps_registry w 0) as [Hc Hout].
  split; [reflexivity|]. split; [reflexivity|]. split; [exact Hc|].
  exact (proj2 (Hout eq_refl)).
Defined.

(** ** A relay whose send fails *)

(** X12: when a relay frame names a non-empty target that is in the
    registry with an open socket and the send to it throws, the message is
    not delivered and the target is disconnected: its entry leaves the
    registry.  The effects are, in this order and with nothing else: the
    relay line, the send-error line, the disconnect line, then one
    directory round over the registry that is left, which hands [peers]
    with the remaining ids to every remaining entry whose socket is open (a
    warning instead where that send throws), and its log line.  The relayed
    message and an [error] reply are not among them. *)
Theorem failed_relay_disconnects_target w sender msg now T c :
  registry_ok w ->
  accepted sender w = true ->
  type msg = "offer" \/ type msg = "answer" \/ type msg = "ice-candidate" ->
  target msg = Some T -> T <> "" ->
  Map_get T (clients w) = Some c ->
  readyState (socket (deref c w)) w = OPEN ->
  next_fault w = true ->
  let w' := step w (message sender (Json msg) now) in
  clients w' = Map_delete T (clients w)
  /\ Map_get T (clients w') = None
  /\ effects_since w w'
     = [Log info (Relaying (type msg) (source msg) T);
        Log error (SendError T); Log info (ClientDisconnected T)]
       ++ peers_broadcast w' (tail (faults w))
  /\ (forall s m, In (Send s m) (effects_since w w') ->
        m = Peers (Map_keys (clients w'))).
Proof.
  intros [_ Hk] Hacc Hty Htgt HT Hget Hopen Hfault w'. subst w'.
  assert (HidT : id (deref c w) = T).
  { destruct (Hk T c (Map_get_In _ _ _ Hget)) as (cl & Hcl & Hid).
    unfold deref. now rewrite Hcl. }
  rewrite step_message_json by exact Hacc.
  rewrite dispatch_relay, relayMessage_eq by exact Hty.
  rewrite Htgt. cbn [falsy from_option Datatypes.id].
  destruct (String.eqb_spec T "") as [|_]; [contradiction|]. cbv zeta.
  change (clients (seen sender now w)) with (clients w). rewrite Hget.
  match goal with |- context [sendToClient c ?m ?w1] =>
    destruct (sendToClient_exact c m w1) as (w' & E & _ & _ & _ & _ & _ & Hfail)
  end.
  rewrite E. cbn [world_of].
  assert (Hsock : forall e, socket (deref c (emit e (seen sender now w)))
                            = socket (deref c w))
    by (intros e; apply (proj2 (deref_seen sender now c w))).
  assert (Hid : forall e, id (deref c (emit e (seen sender now w))) = T)
    by (intros e; rewrite <- HidT; apply (proj1 (deref_seen sender now c w))).
  rewrite Hsock, !Hid in Hfail.
  destruct (Hfail Hopen Hfault) as (Hc & _ & Htr).
  change (clients (emit _ (seen sender now w))) with (clients w) in Hc.
  assert (Heff : effects_since w w'
                 = [Log info (Relaying (type msg) (source msg) T);
                    Log error (SendError T); Log info (ClientDisconnected T)]
                   ++ peers_broadcast w' (tail (faults w))).
  { apply effects_since_app. rewrite Htr. store_simpl.
    now rewrite <- !app_assoc. }
  split; [exact Hc|]. split; [rewrite Hc; apply Map_get_delete_eq|].
  split; [exact Heff|].
  intros s m Hin. rewrite Heff in Hin. cbn [app] in Hin.
  destruct Hin as [[=]|[[=]|[[=]|Hin]]]. now apply peers_broadcast_sends in Hin.
Qed.

Lemma failed_relay_disconnects_target_witness :
  let w := step (run initial alice_and_bob) (fault [true]) in
  let w' := step w (message 1 (Json offer_to_alice) 30) in
  registry_ok w /\ Map_get "alice" (clients w) = Some 0
  /\ clients w' = [("bob", 1)]
  /\ effects_since w w'
     = [Log info (Relaying "offer" (Some "bob") "alice");
        Log error (SendError "alice"); Log info (ClientDisconnected "alice");
        Send 1 (Peers ["bob"]); Log info (BroadcastedPeerList 1)].
Proof.
  intros w w'.
  assert (Hok : registry_ok w) by concrete_registry_ok.
  assert (HT : "alice" <> "") by discriminate.
  destruct (failed_relay_disconnects_target w 1 offer_to_alice 30 "alice" 0 Hok
              eq_refl (or_introl eq_refl) eq_refl HT eq_refl eq_refl eq_refl)
    as (Hc & _ & Heff & _).
  split; [exact Hok|]. split; [reflexivity|]. split; [exact Hc|exact Heff].
Defined.
